(** * chess-coach: the feature and label extraction pipeline of [main.py]

    A shallow embedding of [main.py] and the properties of its
    specification.  Python integers are [Z]; squares are the integers
    [0..63] of the chess library (a1 = 0, h8 = 63); a feature record (a
    Python dict from field name to scalar) is a [gmap string Value];
    exceptions are an error result.

    The chess rules engine (the [chess] package) and the evaluation
    engine are external collaborators: the board operations the script
    calls are the fields of the class [ChessLib], the score conversion
    those of [ScoreLib], and the engine is an argument of the extraction,
    as in the script. *)

From Stdlib Require Import ZArith Lia.
From stdpp Require Import base list strings gmap pretty.

(** ** Pieces, colours and squares *)

Inductive PieceType : Type := PAWN | KNIGHT | BISHOP | ROOK | QUEEN | KING.

#[global] Instance PieceType_eq_dec : EqDecision PieceType.
Proof. solve_decision. Defined.

(** The integer behind each piece type constant of the chess library. *)
Definition piece_type_code (pt : PieceType) : Z :=
  match pt with
  | PAWN => 1 | KNIGHT => 2 | BISHOP => 3 | ROOK => 4 | QUEEN => 5 | KING => 6
  end.

Definition PIECE_TYPES : list PieceType :=
  [PAWN; KNIGHT; BISHOP; ROOK; QUEEN; KING].

(** A colour is a Python bool: [WHITE = True], [BLACK = False]. *)
Definition Color : Type := bool.
Definition WHITE : Color := true.
Definition BLACK : Color := false.

Record Piece : Type := mkPiece { piece_type : PieceType; color : Color }.

#[global] Instance Piece_eq_dec : EqDecision Piece.
Proof. solve_decision. Defined.

Definition Square : Type := nat.

Definition SQUARES : list Square := seq 0 64.

Definition B1 : Square := 1.
Definition C1 : Square := 2.
Definition F1 : Square := 5.
Definition G1 : Square := 6.
Definition B8 : Square := 57.
Definition C8 : Square := 58.
Definition F8 : Square := 61.
Definition G8 : Square := 62.

(** [chess.square_mirror]: flip the rank, keep the file ([sq ^ 0x38]). *)
Definition square_mirror (sq : Square) : Square := Nat.lxor sq 56.

(** ** Piece placement

    The part of a board the positional functions read: which piece
    stands on which square ([board.piece_at]). *)

Definition BaseBoard : Type := Square -> option Piece.

(** [board.pieces(piece_type, color)]: the squares holding a piece of that
    type and colour, in ascending order. *)
Definition on_square (board : BaseBoard) (pt : PieceType) (c : Color)
    (sq : Square) : bool :=
  match board sq with
  | Some p => bool_decide (piece_type p = pt) && bool_decide (color p = c)
  | None => false
  end.

Definition pieces (board : BaseBoard) (pt : PieceType) (c : Color)
    : list Square :=
  List.filter (on_square board pt c) SQUARES.

(** Python's [sq in [...]] on a list of squares. *)
Definition sq_in (sq : Square) (l : list Square) : bool :=
  existsb (Nat.eqb sq) l.

(** ** Positional feature functions *)

Definition values : list (PieceType * Z) :=
  [(PAWN, 1); (KNIGHT, 3); (BISHOP, 3); (ROOK, 5); (QUEEN, 9)]%Z.

Definition material_balance (board : BaseBoard) : Z :=
  fold_left
    (fun score '(pt, val) =>
       let score := (score + Z.of_nat (length (pieces board pt WHITE)) * val)%Z in
       (score - Z.of_nat (length (pieces board pt BLACK)) * val)%Z)
    values 0%Z.

Definition minors : list PieceType := [BISHOP; KNIGHT].

Definition developed_pieces (board : BaseBoard) : Z :=
  fold_left
    (fun dev pt =>
       let dev :=
         fold_left
           (fun dev sq =>
              if negb (sq_in sq [B1; G1; C1; F1]) then (dev + 1)%Z else dev)
           (pieces board pt WHITE) dev in
       fold_left
         (fun dev sq =>
            if negb (sq_in sq [B8; G8; C8; F8]) then (dev + 1)%Z else dev)
         (pieces board pt BLACK) dev)
    minors 0%Z.

(** [pst.get(piece, [0]*64)]: the 64-entry table of a piece type. *)
Definition pst (pt : PieceType) : list Z :=
  match pt with
  | PAWN => concat (replicate 8 [0; 5; 5; 0; 5; 10; 50; 0]%Z)
  | KNIGHT => concat (replicate 8 [-50; -40; -30; -30; -30; -30; -40; -50]%Z)
  | _ => replicate 64 0%Z
  end.

(** The index is a square of [pieces], or its mirror: always below 64, so
    the list index never fails. *)
Definition piece_square_table (board : BaseBoard) : Z :=
  fold_left
    (fun score piece =>
       let score :=
         fold_left (fun score sq => (score + nth sq (pst piece) 0)%Z)
           (pieces board piece WHITE) score in
       fold_left
         (fun score sq => (score - nth (square_mirror sq) (pst piece) 0)%Z)
         (pieces board piece BLACK) score)
    PIECE_TYPES 0%Z.

(** [board.mirror()] on the placement: the board flipped vertically with
    the colours of all pieces swapped. *)
Definition swap_color (p : Piece) : Piece :=
  mkPiece (piece_type p) (negb (color p)).

Definition mirror (board : BaseBoard) : BaseBoard :=
  fun sq => swap_color <$> board (square_mirror sq).

(** ** The chess library, as the script uses it *)

Record Move : Type := mkMove {
  from_square : Square;
  to_square : Square;
  promotion : option PieceType
}.

(** The operations of [chess.Board] called by the script.  A board is a
    piece placement ([base_board], what [piece_at] and [pieces] read)
    together with everything else the rules need. *)
Class ChessLib : Type := {
  Board : Type;
  base_board : Board -> BaseBoard;
  turn : Board -> Color;
  push : Board -> Move -> Board;
  is_capture : Board -> Move -> bool;
  is_check : Board -> bool;
  is_castling : Board -> Move -> bool;
  fen : Board -> string;
  is_attacked_by : Board -> Color -> Square -> bool
}.

(** The score objects of [chess.engine]: [info["score"]] is a [PovScore],
    [.white()] gives the [Score] from white's side, and
    [.score(mate_score=m)] converts it to an integer or [None]. *)
Class ScoreLib : Type := {
  PovScore : Type;
  Score : Type;
  white : PovScore -> Score;
  score : Score -> Z -> option Z
}.

(** [engine.analyse(board, chess.engine.Limit(depth=d))["score"]]. *)
Definition Engine `{ChessLib} `{ScoreLib} : Type := Board -> nat -> PovScore.

(** [game.board()] and [game.mainline_moves()]. *)
Record Game `{ChessLib} : Type := mkGame {
  game_board : Board;
  mainline_moves : list Move
}.

Definition opponent_threat_count `{ChessLib} (board : Board) : Z :=
  fold_left
    (fun threats sq =>
       if is_attacked_by board (negb (turn board)) sq
       then (threats + 1)%Z else threats)
    SQUARES 0%Z.

(** ** Feature records and exceptions *)

Inductive Value : Type :=
| VInt (z : Z)
| VBool (b : bool)
| VStr (s : string).

#[global] Instance Value_eq_dec : EqDecision Value.
Proof. solve_decision. Defined.

Abbreviation Feat := (gmap string Value).

Inductive Exn : Type := IndexError | KeyError.

Inductive Result (A : Type) : Type :=
| Ok (a : A)
| Raise (e : Exn).
Arguments Ok {A} a.
Arguments Raise {A} e.

#[global] Instance Result_ret : MRet Result := @Ok.
#[global] Instance Result_bind : MBind Result :=
  fun A B f r => match r with Ok a => f a | Raise e => Raise e end.

(** A [for] loop whose body may raise: the state is threaded through the
    items, and the first exception ends the loop. *)
Fixpoint for_each {A S : Type} (body : S -> A -> Result S) (items : list A)
    (s : S) : Result S :=
  match items with
  | [] => Ok s
  | x :: items => s ← body s x; for_each body items s
  end.

(** [d[k]] on a dict. *)
Definition getitem (d : Feat) (k : string) : Result Value :=
  match d !! k with
  | Some v => Ok v
  | None => Raise KeyError
  end.

(** [l[-1]] on a list. *)
Definition last_item {A : Type} (l : list A) : Result A :=
  match last l with
  | Some x => Ok x
  | None => Raise IndexError
  end.

(** [l[-2:]]: the last two items, or the whole list when it is shorter. *)
Definition last_two {A : Type} (l : list A) : list A :=
  drop (length l - 2) l.

Fixpoint enumerate {A : Type} (start : nat) (l : list A) : list (nat * A) :=
  match l with
  | [] => []
  | x :: l => (start, x) :: enumerate (S start) l
  end.

(** ** extract_features_from_game *)

(** The local variables of the function that live across iterations. *)
Record LoopState `{ChessLib} : Type := mkLoopState {
  board : Board;
  move_number : Z;
  prev_eval : Z;
  move_history : list Feat;
  features : list Feat;
  labels : list string
}.

(** The dict literal of the move features, then the four positional
    features, all read from the board before the move is pushed. *)
Definition move_features `{ChessLib} (b : Board) (number : Z) (move : Move)
    : Feat :=
  let piece := base_board b (from_square move) in
  let feat : Feat :=
    <["fen" := VStr (fen b)]>
    (<["is_castle" := VBool (is_castling b move)]>
    (<["is_check" := VBool (is_check b)]>
    (<["is_capture" := VBool (is_capture b move)]>
    (<["to_square" := VInt (Z.of_nat (to_square move))]>
    (<["from_square" := VInt (Z.of_nat (from_square move))]>
    (<["piece" := VInt (match piece with
                        | Some p => piece_type_code (piece_type p)
                        | None => 0%Z
                        end)]>
    (<["move_number" := VInt number]> ∅))))))) in
  let feat := <["material_balance" := VInt (material_balance (base_board b))]> feat in
  let feat := <["developed_pieces" := VInt (developed_pieces (base_board b))]> feat in
  let feat := <["pst_score" := VInt (piece_square_table (base_board b))]> feat in
  <["opponent_threats" := VInt (opponent_threat_count b)]> feat.

(** The move history loop:
    [for i, past in enumerate(move_history[-2:], 1)]. *)
Definition history_body (feat : Feat) (item : nat * Feat) : Result Feat :=
  let '(i, past) := item in
  v ← getitem past "piece";
  let feat := <["prev_" +:+ pretty i +:+ "_piece" := v]> feat in
  v ← getitem past "is_capture";
  mret (<["prev_" +:+ pretty i +:+ "_is_capture" := v]> feat).

Definition history_fields (history : list Feat) (feat : Feat) : Result Feat :=
  for_each history_body (enumerate 1 (last_two history)) feat.

(** The label of a move from the evaluation difference. *)
Definition label_of (diff : Z) : string :=
  if (diff <? 20)%Z then "good"
  else if (diff >? 100)%Z then "blunder"
  else "inaccuracy".

(** The evaluation after a move: the engine's score from white's side with
    mates as 10000, or the previous evaluation when there is none. *)
Definition eval_after `{ChessLib} `{ScoreLib} (engine : Engine)
    (pushed : Board) (previous : Z) : Z :=
  let info := engine pushed 12 in
  let eval_score := score (white info) 10000 in
  match eval_score with
  | None => previous
  | Some eval_score => eval_score
  end.

(** One iteration of the loop over the mainline moves. *)
Definition loop_body `{ChessLib} `{ScoreLib} (engine : Engine)
    (st : LoopState) (move : Move) : Result LoopState :=
  let number := (move_number st + 1)%Z in
  let feat := move_features (board st) number move in
  feat ← history_fields (move_history st) feat;
  let pushed := push (board st) move in
  let eval_score := eval_after engine pushed (prev_eval st) in
  let diff := (prev_eval st - eval_score)%Z in
  let label := label_of diff in
  mret {| board := pushed;
          move_number := number;
          prev_eval := eval_score;
          move_history := move_history st ++ [feat];
          features := features st ++ [feat];
          labels := labels st ++ [label] |}.

Definition initial_state `{ChessLib} (game : Game) : LoopState :=
  {| board := game_board game;
     move_number := 0;
     prev_eval := 0;
     move_history := [];
     features := [];
     labels := [] |}.

(** The state after the loop has run over the given moves. *)
Definition run_moves `{ChessLib} `{ScoreLib} (engine : Engine) (game : Game)
    (moves : list Move) : Result LoopState :=
  for_each (loop_body engine) moves (initial_state game).

(** The final trace line indexes the last record and the last label
    before the two lists are returned. *)
Definition extract_features_from_game `{ChessLib} `{ScoreLib} (game : Game)
    (engine : Engine) : Result (list Feat * list string) :=
  st ← run_moves engine game (mainline_moves game);
  _ ← last_item (features st);
  _ ← last_item (labels st);
  mret (features st, labels st).

(** ** build_dataset *)

(** [chess.pgn.read_game(f)]: the next game of the archive, or [None] at
    its end; the file handle is the list of games still to be read. *)
Definition read_game `{ChessLib} (f : list Game) : option Game * list Game :=
  match f with
  | [] => (None, [])
  | game :: f => (Some game, f)
  end.

(** [for feat, label in zip(feats, labels)]: attach the label, append. *)
Definition add_rows (all_rows : list Feat) (feats : list Feat)
    (labels : list string) : list Feat :=
  fold_left
    (fun all_rows '(feat, label) =>
       all_rows ++ [<["label" := VStr label]> feat])
    (zip feats labels) all_rows.

(** The [while game_count < 500] loop.  [fuel] bounds the number of
    iterations; [None] means the fuel ran out before the loop ended. *)
Fixpoint read_games `{ChessLib} `{ScoreLib} (fuel : nat) (engine : Engine)
    (f : list Game) (game_count : Z) (all_rows : list Feat)
    : option (Result (Z * list Feat)) :=
  if (game_count <? 500)%Z then
    match fuel with
    | O => None
    | S fuel =>
        match read_game f with
        | (None, _) => Some (Ok (game_count, all_rows))
        | (Some game, f) =>
            let game_count := (game_count + 1)%Z in
            match extract_features_from_game game engine with
            | Raise e => Some (Raise e)
            | Ok (feats, labels) =>
                read_games fuel engine f game_count
                  (add_rows all_rows feats labels)
            end
        end
    end
  else Some (Ok (game_count, all_rows)).

(** The driver: the number of games processed and the rows of the
    dataset, in the order they are written. *)
Definition build_dataset `{ChessLib} `{ScoreLib} (pgn_file : list Game)
    (engine : Engine) : option (Result (Z * list Feat)) :=
  read_games 500 engine pgn_file 0 [].

(** ** The score conversion *)

(** Modelled from the spec: the score objects of the engine library
    ([PovScore.white] and [Score.score]) are not part of the script.  The
    engine "returns a centipawn evaluation or mate indicator", signed
    towards one side; the conversion yields "a single numeric value from
    the fixed reference side's perspective, with mate positions mapped to
    a large constant magnitude", and there may be "no usable score". *)
Inductive SpecScore : Type :=
| Cp (cp : Z)
| Mate (wins : bool)
| NoScore.

(** A score together with the side it is relative to. *)
Record SpecPovScore : Type := mkPov { relative : SpecScore; pov : Color }.

Definition negate (s : SpecScore) : SpecScore :=
  match s with
  | Cp cp => Cp (- cp)
  | Mate wins => Mate (negb wins)
  | NoScore => NoScore
  end.

Definition spec_white (p : SpecPovScore) : SpecScore :=
  if pov p then relative p else negate (relative p).

Definition spec_score (s : SpecScore) (mate_score : Z) : option Z :=
  match s with
  | Cp cp => Some cp
  | Mate true => Some mate_score
  | Mate false => Some (- mate_score)%Z
  | NoScore => None
  end.

Definition SpecScores : ScoreLib :=
  {| PovScore := SpecPovScore; Score := SpecScore;
     white := spec_white; score := spec_score |}.

(** The same assessment, stated from the other side. *)
Definition flip_pov (p : SpecPovScore) : SpecPovScore :=
  mkPov (negate (relative p)) (negb (pov p)).

(** ** A small board library for examples

    Pieces move from square to square without further rules; only kings
    and knights attack.  Enough to replay short games by evaluation. *)

Record LeaperBoard : Type := mkLeaper {
  placement : BaseBoard;
  to_move : Color;
  plies : nat
}.

Definition sq_file (sq : Square) : nat := sq mod 8.
Definition sq_rank (sq : Square) : nat := sq / 8.
Definition gap (a b : nat) : nat := (a - b) + (b - a).

Definition leaper_attacks (p : Piece) (from to : Square) : bool :=
  let df := gap (sq_file from) (sq_file to) in
  let dr := gap (sq_rank from) (sq_rank to) in
  match piece_type p with
  | KNIGHT => (df =? 1) && (dr =? 2) || (df =? 2) && (dr =? 1)
  | KING => (df <=? 1) && (dr <=? 1) && negb (from =? to)
  | _ => false
  end.

Definition leaper_is_attacked_by (b : LeaperBoard) (c : Color) (sq : Square)
    : bool :=
  existsb
    (fun from =>
       match placement b from with
       | Some p => bool_decide (color p = c) && leaper_attacks p from sq
       | None => false
       end)
    SQUARES.

Definition leaper_is_check (b : LeaperBoard) : bool :=
  existsb
    (fun sq =>
       on_square (placement b) KING (to_move b) sq
       && leaper_is_attacked_by b (negb (to_move b)) sq)
    SQUARES.

Definition leaper_push (b : LeaperBoard) (m : Move) : LeaperBoard :=
  {| placement := fun sq =>
       if sq =? to_square m then placement b (from_square m)
       else if sq =? from_square m then None
       else placement b sq;
     to_move := negb (to_move b);
     plies := S (plies b) |}.

Definition leaper_is_capture (b : LeaperBoard) (m : Move) : bool :=
  match placement b (to_square m) with
  | Some p => bool_decide (color p = negb (to_move b))
  | None => false
  end.

Definition Leapers : ChessLib :=
  {| Board := LeaperBoard;
     base_board := placement;
     turn := to_move;
     push := leaper_push;
     is_capture := leaper_is_capture;
     is_check := leaper_is_check;
     is_castling := fun _ _ => false;
     fen := fun b => "ply " +:+ pretty (plies b);
     is_attacked_by := leaper_is_attacked_by |}.

(** White: king e1, knight g1.  Black: king e8, knight b8. *)
Definition leaper_start : LeaperBoard :=
  {| placement := fun sq =>
       if sq =? 4 then Some (mkPiece KING WHITE)
       else if sq =? G1 then Some (mkPiece KNIGHT WHITE)
       else if sq =? 60 then Some (mkPiece KING BLACK)
       else if sq =? B8 then Some (mkPiece KNIGHT BLACK)
       else None;
     to_move := WHITE;
     plies := 0 |}.

(** An engine that answers the n-th position with the n-th score of a
    script, relative to the side to move, and with no score past its end. *)
Definition scripted (script : list SpecScore)
    : @Engine Leapers SpecScores :=
  fun b _ => mkPov (nth (plies b - 1) script NoScore) (to_move b).

Definition leaper_game (moves : list Move) : @Game Leapers :=
  @mkGame Leapers leaper_start moves.

Definition Nf3 : Move := mkMove G1 21 None.
Definition Nc6 : Move := mkMove B8 42 None.
Definition Ng5 : Move := mkMove 21 38 None.
Definition Nd4 : Move := mkMove 42 27 None.
Definition Nf6 : Move := mkMove 38 45 None.

(** A board with a single piece. *)
Definition lone (p : Piece) (at_sq : Square) : BaseBoard :=
  fun sq => if sq =? at_sq then Some p else None.

Definition Ke2 : Move := mkMove 4 12 None.

(** Five knight moves, the last one giving check, and an engine that has
    no score for the third position. *)
Definition knight_game : @Game Leapers :=
  leaper_game [Nf3; Nc6; Ng5; Nd4; Nf6].

Definition knight_engine : @Engine Leapers SpecScores :=
  scripted [Cp 10; Cp 140; NoScore; Mate true; Cp 0].

(** A king move, then two knight moves. *)
Definition king_first_game : @Game Leapers := leaper_game [Ke2; Nc6; Nf3].

(** A game without moves, as read from headers alone. *)
Definition no_moves_game : @Game Leapers := leaper_game [].

Definition king_first_result : Result (list Feat * list string) :=
  extract_features_from_game king_first_game knight_engine.

(** ** Vocabulary of the properties *)

(** The board after the first [n] mainline moves: the board on which move
    [n + 1] is about to be played. *)
Definition replay `{ChessLib} (game : Game) (n : nat) : Board :=
  fold_left push (take n (mainline_moves game)) (game_board game).

(** The value of [prev_eval] once [n] moves have been processed: 0 at the
    start, then the evaluation stored by the n-th iteration.  (The loop
    never raises, see [run_moves_ok]; the second branch is never taken.) *)
Definition eval_at `{ChessLib} `{ScoreLib} (engine : Engine) (game : Game)
    (n : nat) : Z :=
  match run_moves engine game (take n (mainline_moves game)) with
  | Ok st => prev_eval st
  | Raise _ => 0%Z
  end.

(** The loop state once the given moves have been processed. *)
Definition state_after `{ChessLib} `{ScoreLib} (engine : Engine) (game : Game)
    (moves : list Move) : LoopState :=
  match run_moves engine game moves with
  | Ok st => st
  | Raise _ => initial_state game
  end.

(** A field of the n-th record (from 0) of an extraction result. *)
Definition record_field (r : Result (list Feat * list string)) (n : nat)
    (key : string) : option Value :=
  match r with
  | Ok (fs, _) => f ← fs !! n; f !! key
  | Raise _ => None
  end.

(** The n-th label (from 0) of an extraction result. *)
Definition record_label (r : Result (list Feat * list string)) (n : nat)
    : option string :=
  match r with
  | Ok (_, ls) => ls !! n
  | Raise _ => None
  end.

(** The records and the labels of an extraction result. *)
Definition records_of (r : Result (list Feat * list string)) : list Feat :=
  match r with
  | Ok (fs, _) => fs
  | Raise _ => []
  end.

Definition labels_of (r : Result (list Feat * list string)) : list string :=
  match r with
  | Ok (_, ls) => ls
  | Raise _ => []
  end.

(** The n-th record (from 0) of an extraction result, empty when absent. *)
Definition nth_record (r : Result (list Feat * list string)) (n : nat) : Feat :=
  default ∅ (records_of r !! n).

(** The fields the history loop adds for one and for two past moves. *)
Definition prev_1_keys : gset string :=
  {[ "prev_1_piece"; "prev_1_is_capture" ]}.

Definition prev_2_keys : gset string :=
  {[ "prev_2_piece"; "prev_2_is_capture" ]}.

(** The fields every record has. *)
Definition base_keys : gset string :=
  list_to_set
    ["move_number"; "piece"; "from_square"; "to_square"; "is_capture";
     "is_check"; "is_castle"; "fen"; "material_balance"; "developed_pieces";
     "pst_score"; "opponent_threats"].

(** What the history loop reads from a past record. *)
Definition has_history_keys (f : Feat) : Prop :=
  is_Some (f !! "piece") ∧ is_Some (f !! "is_capture").

(** Keys the history loop can write. *)
Definition history_key (key : string) : Prop :=
  key = "prev_1_piece" ∨ key = "prev_1_is_capture"
  ∨ key = "prev_2_piece" ∨ key = "prev_2_is_capture".

(** What holds of the loop state between two iterations. *)
Definition loop_inv `{ChessLib} (st : LoopState) : Prop :=
  move_history st = features st
  ∧ length (labels st) = length (features st)
  ∧ Forall has_history_keys (move_history st).

Definition is_minor (pt : PieceType) : bool :=
  match pt with
  | BISHOP | KNIGHT => true
  | _ => false
  end.

(** The four squares the minor pieces of a colour start on. *)
Definition minor_home (c : Color) : list Square :=
  if c then [B1; G1; C1; F1] else [B8; G8; C8; F8].

(** The two squares the pieces of one type and colour start on. *)
Definition own_home (pt : PieceType) (c : Color) : list Square :=
  match pt, c with
  | KNIGHT, true => [B1; G1]
  | KNIGHT, false => [B8; G8]
  | BISHOP, true => [C1; F1]
  | BISHOP, false => [C8; F8]
  | _, _ => []
  end.

Definition count_squares (P : Square -> bool) : Z :=
  Z.of_nat (length (List.filter P SQUARES)).

(** A minor piece stands here, off the minor-piece squares of its colour. *)
Definition developed_on (board : BaseBoard) (sq : Square) : bool :=
  match board sq with
  | Some p => is_minor (piece_type p) && negb (sq_in sq (minor_home (color p)))
  | None => false
  end.

(** A minor piece stands here, off the starting squares of its own kind. *)
Definition off_own_square (board : BaseBoard) (sq : Square) : bool :=
  match board sq with
  | Some p =>
      is_minor (piece_type p)
      && negb (sq_in sq (own_home (piece_type p) (color p)))
  | None => false
  end.

(** The rows a list of games contributes to the dataset. *)
Fixpoint dataset_rows `{ChessLib} `{ScoreLib} (engine : Engine)
    (games : list Game) : list Feat :=
  match games with
  | [] => []
  | game :: games =>
      match extract_features_from_game game engine with
      | Ok (feats, labels) => add_rows [] feats labels
      | Raise _ => []
      end ++ dataset_rows engine games
  end.

(** The sum of a function over a list of squares. *)
Definition sum_with (f : Square -> Z) (l : list Square) : Z :=
  fold_right (fun sq acc => (f sq + acc)%Z) 0%Z l.

(** The worth of a piece type in the material count; the king has none. *)
Definition piece_value (pt : PieceType) : Z :=
  match pt with
  | PAWN => 1 | KNIGHT => 3 | BISHOP => 3 | ROOK => 5 | QUEEN => 9 | KING => 0
  end%Z.

(** What one square adds to the material balance. *)
Definition material_on (board : BaseBoard) (sq : Square) : Z :=
  match board sq with
  | Some p =>
      if color p then piece_value (piece_type p)
      else (- piece_value (piece_type p))%Z
  | None => 0%Z
  end.

(** The eight values of a table row, by file. *)
Definition pst_row (pt : PieceType) : list Z :=
  match pt with
  | PAWN => [0; 5; 5; 0; 5; 10; 50; 0]%Z
  | KNIGHT => [-50; -40; -30; -30; -30; -30; -40; -50]%Z
  | _ => [0; 0; 0; 0; 0; 0; 0; 0]%Z
  end.

(** What one square adds to the piece-square score. *)
Definition pst_on (board : BaseBoard) (sq : Square) : Z :=
  match board sq with
  | Some p =>
      if color p then nth sq (pst (piece_type p)) 0%Z
      else (- nth (square_mirror sq) (pst (piece_type p)) 0)%Z
  | None => 0%Z
  end.

(** A bishop or a knight stands here. *)
Definition minor_on (board : BaseBoard) (sq : Square) : bool :=
  match board sq with
  | Some p => is_minor (piece_type p)
  | None => false
  end.

(** The three labels. *)
Definition is_label (l : string) : Prop :=
  l = "good" ∨ l = "inaccuracy" ∨ l = "blunder".

(** The total number of mainline moves of a list of games. *)
Definition total_moves `{ChessLib} (games : list Game) : nat :=
  sum_list_with (fun game => length (mainline_moves game)) games.

(** * Properties *)

(** ** Loops and exceptions *)

(** Closes an equation between closed terms by evaluating its left side;
    the right side is taken as it stands, so that records are not
    rebuilt outside the evaluator. *)
Ltac by_evaluation :=
  lazymatch goal with
  | |- _ = ?rhs => vm_cast_no_check (@eq_refl _ rhs)
  end.


Lemma for_each_app {A S : Type} (body : S -> A -> Result S)
    (l1 l2 : list A) (s : S) :
  for_each body (l1 ++ l2) s = (for_each body l1 s ≫= for_each body l2).
Proof.
  revert s. induction l1 as [|x l1 IH]; intros s; simpl; [done|].
  destruct (body s x) as [s'|e]; simpl; [apply IH|done].
Qed.

Lemma last_two_cases {A : Type} (l : list A) :
  (l = [] ∧ last_two l = [])
  ∨ (∃ a, l = [a] ∧ last_two l = [a])
  ∨ (∃ l' a b, l = l' ++ [a; b] ∧ last_two l = [a; b]).
Proof.
  destruct l as [|x l] using rev_ind; [by left|].
  destruct l as [|y l _] using rev_ind; [right; left; by exists x|].
  right; right. exists l, y, x. rewrite <- app_assoc. split; [done|].
  unfold last_two. rewrite length_app. simpl.
  replace (length l + 2 - 2) with (length l) by lia.
  by rewrite drop_app_length.
Qed.

Lemma history_body_ok (feat past : Feat) (i : nat) (p c : Value) :
  past !! "piece" = Some p ->
  past !! "is_capture" = Some c ->
  history_body feat (i, past)
  = Ok (<["prev_" +:+ pretty i +:+ "_is_capture" := c]>
          (<["prev_" +:+ pretty i +:+ "_piece" := p]> feat)).
Proof.
  intros Hp Hc. unfold history_body, getitem. by rewrite Hp, Hc.
Qed.

Lemma history_fields_nil (feat : Feat) : history_fields [] feat = Ok feat.
Proof. done. Qed.

Lemma history_fields_one (feat a : Feat) (p c : Value) :
  a !! "piece" = Some p ->
  a !! "is_capture" = Some c ->
  history_fields [a] feat
  = Ok (<["prev_1_is_capture" := c]> (<["prev_1_piece" := p]> feat)).
Proof.
  intros Hp Hc. unfold history_fields.
  change (last_two [a]) with [a]. cbn [enumerate for_each].
  by rewrite (history_body_ok _ _ _ _ _ Hp Hc).
Qed.

Lemma history_fields_two (l : list Feat) (feat a b : Feat)
    (pa ca pb cb : Value) :
  a !! "piece" = Some pa ->
  a !! "is_capture" = Some ca ->
  b !! "piece" = Some pb ->
  b !! "is_capture" = Some cb ->
  history_fields (l ++ [a; b]) feat
  = Ok (<["prev_2_is_capture" := cb]> (<["prev_2_piece" := pb]>
       (<["prev_1_is_capture" := ca]> (<["prev_1_piece" := pa]> feat)))).
Proof.
  intros Hpa Hca Hpb Hcb. unfold history_fields.
  destruct (last_two_cases (l ++ [a; b])) as [[H _]|[(x & H & _)|(l' & x & y & H & ->)]].
  - by destruct l.
  - destruct l as [|? [|? ?]]; discriminate.
  - assert (x = a ∧ y = b) as [-> ->].
    { change [x; y] with ([x] ++ [y]) in H. change [a; b] with ([a] ++ [b]) in H.
      rewrite !app_assoc in H. apply app_inj_tail in H as [H ->].
      by apply app_inj_tail in H as [_ ->]. }
    cbn [enumerate for_each].
    rewrite (history_body_ok _ _ _ _ _ Hpa Hca). cbn [mbind Result_bind].
    by rewrite (history_body_ok _ _ _ _ _ Hpb Hcb).
Qed.

(** The three shapes of the history loop: no past move, one, or more. *)
Lemma history_fields_cases (history : list Feat) (feat : Feat) :
  Forall has_history_keys history ->
  (history = [] ∧ history_fields history feat = Ok feat)
  ∨ (∃ a p c, history = [a]
       ∧ a !! "piece" = Some p ∧ a !! "is_capture" = Some c
       ∧ history_fields history feat
         = Ok (<["prev_1_is_capture" := c]> (<["prev_1_piece" := p]> feat)))
  ∨ (∃ l a b pa ca pb cb, history = l ++ [a; b]
       ∧ a !! "piece" = Some pa ∧ a !! "is_capture" = Some ca
       ∧ b !! "piece" = Some pb ∧ b !! "is_capture" = Some cb
       ∧ history_fields history feat
         = Ok (<["prev_2_is_capture" := cb]> (<["prev_2_piece" := pb]>
              (<["prev_1_is_capture" := ca]> (<["prev_1_piece" := pa]> feat))))).
Proof.
  intros Hkeys.
  destruct (last_two_cases history) as [[-> _]|[(a & -> & _)|(l & a & b & -> & _)]].
  - left. by split.
  - right; left. apply Forall_singleton in Hkeys as [[p Hp] [c Hc]].
    exists a, p, c. eauto using history_fields_one.
  - right; right. apply Forall_app in Hkeys as [_ Hkeys].
    apply Forall_cons in Hkeys as [[[pa Hpa] [ca Hca]] Hkeys].
    apply Forall_singleton in Hkeys as [[pb Hpb] [cb Hcb]].
    exists l, a, b, pa, ca, pb, cb. eauto 10 using history_fields_two.
Qed.

Lemma history_fields_ok (history : list Feat) (feat : Feat) :
  Forall has_history_keys history ->
  ∃ feat', history_fields history feat = Ok feat'
    ∧ (∀ key, ¬ history_key key -> feat' !! key = feat !! key).
Proof.
  intros Hkeys.
  destruct (history_fields_cases history feat Hkeys)
    as [[_ ->]|[(a & p & c & _ & _ & _ & ->)|(l & a & b & pa & ca & pb & cb & _ & _ & _ & _ & _ & ->)]];
    eexists; (split; [done|]); intros key Hkey; [done| |];
    unfold history_key in Hkey; rewrite !lookup_insert_ne; naive_solver.
Qed.

Section Extraction.
Context `{L : ChessLib} `{E : ScoreLib}.
Variable engine : Engine.

Lemma move_features_keys (b : Board) (number : Z) (move : Move) :
  has_history_keys (move_features b number move).
Proof.
  split; unfold move_features; cbv zeta; simplify_map_eq; eauto.
Qed.

Lemma move_features_is_check (b : Board) (number : Z) (move : Move) :
  move_features b number move !! "is_check" = Some (VBool (is_check b)).
Proof. unfold move_features; cbv zeta; by simplify_map_eq. Qed.

(** One iteration never raises, and this is the state it leaves. *)
Lemma loop_body_ok (st : LoopState) (move : Move) :
  loop_inv st ->
  ∃ feat,
    history_fields (move_history st)
      (move_features (board st) (move_number st + 1) move) = Ok feat
    ∧ has_history_keys feat
    ∧ loop_body engine st move
      = Ok {| board := push (board st) move;
              move_number := move_number st + 1;
              prev_eval :=
                eval_after engine (push (board st) move) (prev_eval st);
              move_history := move_history st ++ [feat];
              features := features st ++ [feat];
              labels := labels st ++
                [label_of (prev_eval st -
                   eval_after engine (push (board st) move) (prev_eval st))]
           |}.
Proof.
  intros (_ & _ & Hkeys).
  destruct (history_fields_ok (move_history st)
              (move_features (board st) (move_number st + 1) move) Hkeys)
    as (feat & Hfeat & Hsame).
  exists feat. split; [done|]. split.
  - destruct (move_features_keys (board st) (move_number st + 1) move)
      as [Hp Hc].
    split; (rewrite Hsame;
      [done|unfold history_key; intros [?|[?|[?|?]]]; discriminate]).
  - unfold loop_body. by rewrite Hfeat.
Qed.

Lemma loop_body_inv (st st' : LoopState) (move : Move) :
  loop_inv st -> loop_body engine st move = Ok st' -> loop_inv st'.
Proof.
  intros Hinv Hstep.
  destruct (loop_body_ok st move Hinv) as (feat & _ & Hfeat & Heq).
  rewrite Heq in Hstep. injection Hstep as <-.
  destruct Hinv as (Hh & Hl & Hk). unfold loop_inv; simpl.
  rewrite Hh, !length_app, Hl. split; [done|]. split; [done|].
  rewrite <- Hh. apply Forall_app. by split; [|apply Forall_singleton].
Qed.

Variable game : Game.

Lemma run_moves_snoc (moves : list Move) (move : Move) :
  run_moves engine game (moves ++ [move])
  = (run_moves engine game moves ≫= fun st => loop_body engine st move).
Proof.
  unfold run_moves. rewrite for_each_app.
  destruct (for_each _ moves _) as [st|e]; simpl; [|done].
  by destruct (loop_body engine st move).
Qed.

(** The loop over the moves never raises. *)
Lemma run_moves_ok (moves : list Move) :
  ∃ st, run_moves engine game moves = Ok st
    ∧ loop_inv st
    ∧ length (features st) = length moves
    ∧ board st = fold_left push moves (game_board game)
    ∧ move_number st = Z.of_nat (length moves).
Proof.
  induction moves as [|move moves IH] using rev_ind.
  - exists (initial_state game). unfold loop_inv. simpl. eauto 10.
  - destruct IH as (st & Hrun & Hinv & Hlen & Hboard & Hnum).
    destruct (loop_body_ok st move Hinv) as (feat & _ & _ & Hstep).
    eexists. rewrite run_moves_snoc, Hrun. simpl. split; [exact Hstep|].
    split; [eapply loop_body_inv; eauto|]. simpl.
    rewrite !length_app, Hlen, fold_left_app, Hboard, Hnum. simpl.
    repeat split; try done; lia.
Qed.

(** The records and labels of a prefix of the moves are a prefix of
    those of the whole list. *)
Lemma run_moves_prefix (l1 l2 : list Move) (st1 st : LoopState) :
  run_moves engine game l1 = Ok st1 ->
  run_moves engine game (l1 ++ l2) = Ok st ->
  ∃ fs ls, features st = features st1 ++ fs ∧ labels st = labels st1 ++ ls.
Proof.
  intros H1. revert st. induction l2 as [|move l2 IH] using rev_ind; intros st.
  - rewrite app_nil_r, H1. intros [= <-]. exists [], [].
    by rewrite !app_nil_r.
  - rewrite app_assoc, run_moves_snoc.
    destruct (run_moves_ok (l1 ++ l2)) as (st2 & Hrun & Hinv & _).
    rewrite Hrun. simpl.
    destruct (loop_body_ok st2 move Hinv) as (feat & _ & _ & ->).
    intros [= <-]. simpl.
    destruct (IH st2 Hrun) as (fs & ls & -> & ->).
    eexists (fs ++ [feat]), (ls ++ [_]). by rewrite !app_assoc.
Qed.
End Extraction.

Section Trace.
Context `{L : ChessLib} `{E : ScoreLib}.
Variable engine : Engine.
Variable game : Game.

Lemma replay_S (n : nat) (move : Move) :
  mainline_moves game !! n = Some move ->
  replay game (S n) = push (replay game n) move.
Proof.
  intros Hn. unfold replay.
  by rewrite (take_S_r _ _ _ Hn), fold_left_app.
Qed.

Lemma eval_at_0 : eval_at engine game 0 = 0%Z.
Proof. unfold eval_at. by rewrite take_0. Qed.

(** What the iteration for move [n + 1] starts from, does and leaves. *)
Lemma step_at (n : nat) (move : Move) :
  mainline_moves game !! n = Some move ->
  ∃ (st_n st : LoopState) (feat : Feat),
    run_moves engine game (take n (mainline_moves game)) = Ok st_n
    ∧ features st_n = take n (features st)
    ∧ length (features st_n) = n
    ∧ Forall has_history_keys (features st_n)
    ∧ history_fields (features st_n)
        (move_features (replay game n) (Z.of_nat n + 1) move) = Ok feat
    ∧ run_moves engine game (mainline_moves game) = Ok st
    ∧ features st !! n = Some feat
    ∧ labels st !! n
      = Some (label_of (eval_at engine game n - eval_at engine game (S n)))
    ∧ eval_at engine game (S n)
      = eval_after engine (replay game (S n)) (eval_at engine game n).
Proof.
  intros Hn.
  destruct (run_moves_ok engine game (take n (mainline_moves game)))
    as (st_n & Hrun_n & Hinv & Hlen & Hboard & Hnum).
  destruct (run_moves_ok engine game (mainline_moves game))
    as (st & Hrun & _).
  destruct (loop_body_ok engine st_n move Hinv) as (feat & Hfeat & _ & Hstep).
  assert (Hn' : n < length (mainline_moves game)) by eauto using lookup_lt_Some.
  rewrite length_take in Hlen, Hnum.
  replace (n `min` length (mainline_moves game)) with n in Hlen, Hnum by lia.
  assert (Hrun_S : run_moves engine game (take (S n) (mainline_moves game))
                   = loop_body engine st_n move).
  { by rewrite (take_S_r _ _ _ Hn), run_moves_snoc, Hrun_n. }
  assert (He_n : eval_at engine game n = prev_eval st_n).
  { unfold eval_at. by rewrite Hrun_n. }
  assert (He_S : eval_at engine game (S n)
                 = eval_after engine (push (board st_n) move) (prev_eval st_n)).
  { unfold eval_at. by rewrite Hrun_S, Hstep. }
  destruct Hinv as (Hhist & Hlabels & Hkeys).
  rewrite Hhist, Hboard, Hnum in Hfeat. fold (replay game n) in Hfeat.
  rewrite Hboard in He_S. fold (replay game n) in He_S.
  rewrite <- (replay_S n move Hn) in He_S.
  rewrite Hstep in Hrun_S.
  destruct (run_moves_prefix engine game _ (drop (S n) (mainline_moves game))
              _ st Hrun_S) as (fs & ls & Hfs & Hls).
  { by rewrite take_drop. }
  simpl in Hfs, Hls.
  exists st_n, st, feat. repeat split; try done.
  - rewrite Hfs, <- app_assoc, take_app_length'; done.
  - by rewrite <- Hhist.
  - rewrite Hfs, <- app_assoc, lookup_app_r by lia.
    by rewrite Hlen, Nat.sub_diag.
  - rewrite Hls, <- app_assoc, lookup_app_r by lia.
    rewrite Hlabels, Hlen, Nat.sub_diag. simpl.
    rewrite He_n, He_S. do 3 f_equal.
    by rewrite (replay_S n move Hn), Hboard.
  - by rewrite He_n.
Qed.

(** The function raises exactly when there is no move. *)
Lemma extract_spec :
  ∃ st, run_moves engine game (mainline_moves game) = Ok st
    ∧ length (features st) = length (mainline_moves game)
    ∧ length (labels st) = length (mainline_moves game)
    ∧ extract_features_from_game game engine
      = match mainline_moves game with
        | [] => Raise IndexError
        | _ :: _ => Ok (features st, labels st)
        end.
Proof.
  destruct (run_moves_ok engine game (mainline_moves game))
    as (st & Hrun & (_ & Hlabels & _) & Hlen & _).
  exists st. rewrite Hlabels, Hlen. repeat split; try done.
  unfold extract_features_from_game. rewrite Hrun. simpl.
  unfold last_item.
  destruct (mainline_moves game) as [|move moves] eqn:Hmoves.
  - destruct (features st); [done|discriminate].
  - destruct (last (features st)) as [f|] eqn:Hf.
    2: { apply last_None in Hf. rewrite Hf in Hlen. discriminate. }
    destruct (last (labels st)) as [l|] eqn:Hl; [done|].
    apply last_None in Hl. rewrite Hl in Hlabels. rewrite <- Hlabels in Hlen.
    discriminate.
Qed.

Lemma extract_nonempty (fs : list Feat) (ls : list string) :
  extract_features_from_game game engine = Ok (fs, ls) ->
  ∃ st, run_moves engine game (mainline_moves game) = Ok st
    ∧ fs = features st ∧ ls = labels st
    ∧ length fs = length (mainline_moves game)
    ∧ length ls = length (mainline_moves game).
Proof.
  destruct extract_spec as (st & Hrun & Hlf & Hll & ->).
  destruct (mainline_moves game); [done|].
  intros [= <- <-]. by exists st.
Qed.
End Trace.

(** ** Labels *)

Lemma label_of_good (diff : Z) : label_of diff = "good" ↔ (diff < 20)%Z.
Proof.
  unfold label_of. destruct (Z.ltb_spec diff 20); [done|].
  destruct (diff >? 100)%Z; split; (discriminate || lia).
Qed.

Lemma label_of_blunder (diff : Z) : label_of diff = "blunder" ↔ (diff > 100)%Z.
Proof.
  unfold label_of. destruct (Z.ltb_spec diff 20).
  - split; [discriminate|lia].
  - rewrite Z.gtb_ltb. destruct (Z.ltb_spec 100 diff); split;
      (done || discriminate || lia).
Qed.

Lemma label_of_inaccuracy (diff : Z) :
  label_of diff = "inaccuracy" ↔ (20 <= diff <= 100)%Z.
Proof.
  unfold label_of. destruct (Z.ltb_spec diff 20).
  - split; [discriminate|lia].
  - rewrite Z.gtb_ltb. destruct (Z.ltb_spec 100 diff); split;
      (done || discriminate || lia).
Qed.

(** C1.  In every iteration, with delta the previous evaluation minus the
    evaluation of the move just played, the label appended is "good"
    exactly when delta < 20, "blunder" exactly when delta > 100, and
    "inaccuracy" exactly in between; so 20 and 100 give "inaccuracy", 19
    gives "good" and 101 gives "blunder". *)
Theorem label_by_delta `{L : ChessLib} `{E : ScoreLib} (engine : Engine)
    (st st' : LoopState) (move : Move) :
  loop_body engine st move = Ok st' ->
  let previous_evaluation := prev_eval st in
  let current_evaluation :=
    eval_after engine (push (board st) move) previous_evaluation in
  let delta := (previous_evaluation - current_evaluation)%Z in
  ∃ label,
    labels st' = labels st ++ [label]
    ∧ prev_eval st' = current_evaluation
    ∧ (label = "good" ↔ (delta < 20)%Z)
    ∧ (label = "blunder" ↔ (delta > 100)%Z)
    ∧ (label = "inaccuracy" ↔ (20 <= delta <= 100)%Z)
    ∧ (delta = 20%Z -> label = "inaccuracy")
    ∧ (delta = 100%Z -> label = "inaccuracy")
    ∧ (delta = 19%Z -> label = "good")
    ∧ (delta = 101%Z -> label = "blunder").
Proof.
  intros Hstep previous_evaluation current_evaluation delta.
  exists (label_of delta). unfold loop_body in Hstep.
  destruct (history_fields _ _) as [feat|e]; [|discriminate].
  injection Hstep as <-. simpl.
  split; [done|]. split; [done|].
  split; [apply label_of_good|]. split; [apply label_of_blunder|].
  split; [apply label_of_inaccuracy|].
  repeat split; intros ->; reflexivity.
Qed.

Lemma label_by_delta_witness :
  @loop_body Leapers SpecScores (scripted [Cp 10])
    (initial_state (leaper_game [Nf3])) Nf3
  = Ok (state_after (scripted [Cp 10]) (leaper_game [Nf3]) [Nf3])
  ∧ ∃ label,
      labels (state_after (scripted [Cp 10]) (leaper_game [Nf3]) [Nf3])
      = [label]
      ∧ (label = "good"
         ↔ (0 - eval_after (scripted [Cp 10]) (leaper_push leaper_start Nf3) 0
            < 20)%Z).
Proof.
  assert (Hstep : @loop_body Leapers SpecScores (scripted [Cp 10])
                    (initial_state (leaper_game [Nf3])) Nf3
                  = Ok (state_after (scripted [Cp 10]) (leaper_game [Nf3])
                          [Nf3]))
    by by_evaluation.
  split; [exact Hstep|].
  destruct (label_by_delta _ _ _ _ Hstep) as (label & Hl & _ & Hgood & _).
  exists label. split; [exact Hl|exact Hgood].
Defined.

(** ** Records and labels of a game *)

Section Records.
Context `{L : ChessLib} `{E : ScoreLib}.
Variable engine : Engine.
Variable game : Game.

(** The function returns as soon as the game has a move. *)
Lemma extract_returns (n : nat) (move : Move) :
  mainline_moves game !! n = Some move ->
  ∃ st, run_moves engine game (mainline_moves game) = Ok st
    ∧ extract_features_from_game game engine = Ok (features st, labels st).
Proof.
  intros Hn. destruct (extract_spec engine game) as (st & Hrun & _ & _ & Hex).
  exists st. split; [done|]. rewrite Hex.
  destruct (mainline_moves game); [by rewrite lookup_nil in Hn|done].
Qed.

(** The n-th record holds the features of the board before move [n + 1],
    plus history fields; the n-th label compares the evaluations around
    that move. *)
Lemma record_at (n : nat) (move : Move) (fs : list Feat) (ls : list string) :
  mainline_moves game !! n = Some move ->
  extract_features_from_game game engine = Ok (fs, ls) ->
  ∃ feat,
    fs !! n = Some feat
    ∧ Forall has_history_keys (take n fs)
    ∧ history_fields (take n fs)
        (move_features (replay game n) (Z.of_nat n + 1) move) = Ok feat
    ∧ ls !! n
      = Some (label_of (eval_at engine game n - eval_at engine game (S n))).
Proof.
  intros Hn Hex.
  destruct (step_at engine game n move Hn)
    as (st_n & st & feat & _ & Htake & _ & Hkeys & Hfeat & Hrun & Hf & Hl & _).
  destruct (extract_returns n move Hn) as (st' & Hrun' & Hex').
  rewrite Hrun in Hrun'. injection Hrun' as <-.
  rewrite Hex in Hex'. injection Hex' as -> ->.
  exists feat. by rewrite <- Htake.
Qed.
End Records.

(** C3.  The function does not return for every game: on a game without
    mainline moves the final trace line indexes an empty list and the
    function raises instead of returning two empty sequences. *)
Theorem extract_no_moves_raises :
  extract_features_from_game no_moves_game knight_engine = Raise IndexError.
Proof. vm_compute. reflexivity. Qed.

(** With at least one move the two sequences have one entry per move. *)
Lemma extract_lengths `{L : ChessLib} `{E : ScoreLib} (engine : Engine)
    (game : Game) :
  mainline_moves game ≠ [] ->
  ∃ fs ls, extract_features_from_game game engine = Ok (fs, ls)
    ∧ length fs = length (mainline_moves game)
    ∧ length ls = length (mainline_moves game).
Proof.
  intros Hne. destruct (extract_spec engine game) as (st & _ & Hf & Hl & Hex).
  exists (features st), (labels st). rewrite Hex.
  by destruct (mainline_moves game).
Qed.

Lemma extract_no_moves `{L : ChessLib} `{E : ScoreLib} (engine : Engine)
    (game : Game) :
  mainline_moves game = [] ->
  extract_features_from_game game engine = Raise IndexError.
Proof.
  intros Hnil. destruct (extract_spec engine game) as (st & _ & _ & _ & Hex).
  by rewrite Hex, Hnil.
Qed.

(** C10.  The function is safe exactly for games with at least one mainline
    move: without a move it raises [IndexError] (the last element of the
    empty feature list) and does not return two empty sequences; with a
    move that failure is unreachable and it returns. *)
Theorem extract_safe_with_moves `{L : ChessLib} `{E : ScoreLib}
    (engine : Engine) (game : Game) :
  (mainline_moves game = [] ->
     extract_features_from_game game engine = Raise IndexError
     ∧ extract_features_from_game game engine ≠ Ok ([], []))
  ∧ (mainline_moves game ≠ [] ->
     ∃ fs ls, extract_features_from_game game engine = Ok (fs, ls)
       ∧ length fs = length (mainline_moves game)
       ∧ length ls = length (mainline_moves game)).
Proof.
  split.
  - intros Hnil. rewrite (extract_no_moves engine game Hnil). by split.
  - apply extract_lengths.
Qed.

Lemma extract_safe_with_moves_witness :
  mainline_moves no_moves_game = []
  ∧ extract_features_from_game no_moves_game knight_engine = Raise IndexError
  ∧ mainline_moves knight_game ≠ []
  ∧ ∃ fs ls, extract_features_from_game knight_game knight_engine = Ok (fs, ls)
      ∧ length fs = 5 ∧ length ls = 5.
Proof.
  split; [reflexivity|].
  split; [exact (proj1 (proj1 (extract_safe_with_moves knight_engine
                                 no_moves_game) eq_refl))|].
  split; [discriminate|].
  exact (proj2 (extract_safe_with_moves knight_engine knight_game)
           ltac:(discriminate)).
Defined.

(** C5.  When the engine gives no usable score for the position after a
    move, the evaluation of that move is the previous one (0 for the first
    move), the difference is 0 and the label is "good"; the function still
    returns. *)
Theorem missing_score_is_neutral `{L : ChessLib} `{E : ScoreLib}
    (engine : Engine) (game : Game) (n : nat) (move : Move) :
  mainline_moves game !! n = Some move ->
  score (white (engine (replay game (S n)) 12)) 10000 = None ->
  eval_at engine game (S n) = eval_at engine game n
  ∧ (n = 0 -> eval_at engine game (S n) = 0%Z)
  ∧ (eval_at engine game n - eval_at engine game (S n) = 0)%Z
  ∧ ∃ fs ls, extract_features_from_game game engine = Ok (fs, ls)
      ∧ ls !! n = Some "good".
Proof.
  intros Hn Hnone.
  destruct (step_at engine game n move Hn)
    as (st_n & st & feat & _ & _ & _ & _ & _ & Hrun & _ & Hl & He).
  assert (Heq : eval_at engine game (S n) = eval_at engine game n).
  { rewrite He. unfold eval_after. by rewrite Hnone. }
  split; [done|]. split.
  { intros ->. rewrite Heq. apply eval_at_0. }
  split; [lia|].
  destruct (extract_returns engine game n move Hn) as (st' & Hrun' & Hex).
  rewrite Hrun in Hrun'. injection Hrun' as <-.
  exists (features st), (labels st). split; [done|].
  rewrite Hl, Heq, Z.sub_diag. reflexivity.
Qed.

Lemma missing_score_is_neutral_witness :
  mainline_moves knight_game !! 2 = Some Ng5
  ∧ score (white (knight_engine (replay knight_game 3) 12)) 10000 = None
  ∧ eval_at knight_engine knight_game 3 = eval_at knight_engine knight_game 2
  ∧ ∃ fs ls, extract_features_from_game knight_game knight_engine = Ok (fs, ls)
      ∧ ls !! 2 = Some "good".
Proof.
  assert (Hn : mainline_moves knight_game !! 2 = Some Ng5) by reflexivity.
  assert (Hnone : score (white (knight_engine (replay knight_game 3) 12)) 10000
                  = None) by (vm_compute; reflexivity).
  split; [exact Hn|]. split; [exact Hnone|].
  destruct (missing_score_is_neutral knight_engine knight_game 2 Ng5 Hn Hnone)
    as (Heq & _ & _ & Hgood).
  split; [exact Heq|exact Hgood].
Defined.

(** ** Fields of a record *)

Lemma move_features_piece `{L : ChessLib} (b : Board) (number : Z)
    (move : Move) :
  move_features b number move !! "piece"
  = Some (VInt (match base_board b (from_square move) with
                | Some p => piece_type_code (piece_type p)
                | None => 0%Z
                end)).
Proof. unfold move_features; cbv zeta; by simplify_map_eq. Qed.

Lemma move_features_dom `{L : ChessLib} (b : Board) (number : Z) (move : Move) :
  dom (move_features b number move) = base_keys.
Proof.
  unfold move_features, base_keys. cbv zeta.
  rewrite !dom_insert_L, dom_empty_L. simpl. set_solver.
Qed.

Lemma take_two_more {A : Type} (l : list A) (n : nat) (a b : A) :
  l !! n = Some a -> l !! S n = Some b ->
  take (S (S n)) l = take n l ++ [a; b].
Proof.
  intros Ha Hb.
  rewrite (take_S_r _ _ _ Hb), (take_S_r _ _ _ Ha), <- app_assoc. done.
Qed.

Section Fields.
Context `{L : ChessLib} `{E : ScoreLib}.
Variable engine : Engine.
Variable game : Game.
Variables (fs : list Feat) (ls : list string).
Hypothesis Hex : extract_features_from_game game engine = Ok (fs, ls).

Lemma record_move (n : nat) (f : Feat) :
  fs !! n = Some f -> ∃ move, mainline_moves game !! n = Some move.
Proof.
  intros Hf.
  destruct (extract_nonempty engine game fs ls Hex) as (_ & _ & _ & _ & Hlen & _).
  apply lookup_lt_is_Some. rewrite <- Hlen. eauto using lookup_lt_Some.
Qed.

(** The history loop leaves the other fields as the dict literal and the
    positional features set them. *)
Lemma base_field (n : nat) (move : Move) (f : Feat) (key : string) :
  mainline_moves game !! n = Some move ->
  fs !! n = Some f ->
  ¬ history_key key ->
  f !! key = move_features (replay game n) (Z.of_nat n + 1) move !! key.
Proof.
  intros Hmove Hf Hkey.
  destruct (record_at engine game n move fs ls Hmove Hex)
    as (feat & Hfeat & Hkeys & Hhist & _).
  rewrite Hf in Hfeat. injection Hfeat as <-.
  destruct (history_fields_ok _ (move_features (replay game n)
              (Z.of_nat n + 1) move) Hkeys) as (feat' & Hfeat' & Hsame).
  rewrite Hhist in Hfeat'. injection Hfeat' as <-. by apply Hsame.
Qed.

Lemma is_check_field (n : nat) (f : Feat) :
  fs !! n = Some f ->
  f !! "is_check" = Some (VBool (is_check (replay game n))).
Proof.
  intros Hf. destruct (record_move n f Hf) as [move Hmove].
  rewrite (base_field n move f "is_check" Hmove Hf), move_features_is_check;
    [done|].
  unfold history_key. intros [?|[?|[?|?]]]; discriminate.
Qed.

Lemma piece_field (n : nat) (move : Move) (f : Feat) :
  mainline_moves game !! n = Some move ->
  fs !! n = Some f ->
  f !! "piece"
  = Some (VInt (match base_board (replay game n) (from_square move) with
                | Some p => piece_type_code (piece_type p)
                | None => 0%Z
                end)).
Proof.
  intros Hmove Hf.
  rewrite (base_field n move f "piece" Hmove Hf), move_features_piece; [done|].
  unfold history_key. intros [?|[?|[?|?]]]; discriminate.
Qed.

Lemma first_record (f0 : Feat) : fs !! 0 = Some f0 -> dom f0 = base_keys.
Proof.
  intros Hf0. destruct (record_move 0 f0 Hf0) as [move Hm].
  destruct (record_at engine game 0 move fs ls Hm Hex)
    as (feat & Hfeat & _ & Hhist & _).
  rewrite Hf0 in Hfeat. injection Hfeat as <-.
  rewrite take_0, history_fields_nil in Hhist. injection Hhist as <-.
  apply move_features_dom.
Qed.

Lemma second_record (f0 f1 : Feat) :
  fs !! 0 = Some f0 -> fs !! 1 = Some f1 ->
  dom f1 = base_keys ∪ prev_1_keys
  ∧ is_Some (f0 !! "piece") ∧ is_Some (f0 !! "is_capture")
  ∧ f1 !! "prev_1_piece" = f0 !! "piece"
  ∧ f1 !! "prev_1_is_capture" = f0 !! "is_capture".
Proof.
  intros Hf0 Hf1. destruct (record_move 1 f1 Hf1) as [move Hm].
  destruct (record_at engine game 1 move fs ls Hm Hex)
    as (feat & Hfeat & Hkeys & Hhist & _).
  rewrite Hf1 in Hfeat. injection Hfeat as <-.
  rewrite (take_S_r _ _ _ Hf0), take_0 in Hkeys, Hhist. simpl in Hkeys, Hhist.
  apply Forall_singleton in Hkeys as [[p Hp] [c Hc]].
  rewrite (history_fields_one _ _ _ _ Hp Hc) in Hhist. injection Hhist as <-.
  rewrite !dom_insert_L, move_features_dom, Hp, Hc. unfold prev_1_keys.
  repeat split; eauto; try set_solver; by simplify_map_eq.
Qed.

Lemma later_record (n : nat) (fa fb fc : Feat) :
  fs !! n = Some fa -> fs !! S n = Some fb -> fs !! S (S n) = Some fc ->
  dom fc = base_keys ∪ prev_1_keys ∪ prev_2_keys
  ∧ is_Some (fa !! "piece") ∧ is_Some (fa !! "is_capture")
  ∧ is_Some (fb !! "piece") ∧ is_Some (fb !! "is_capture")
  ∧ fc !! "prev_1_piece" = fa !! "piece"
  ∧ fc !! "prev_1_is_capture" = fa !! "is_capture"
  ∧ fc !! "prev_2_piece" = fb !! "piece"
  ∧ fc !! "prev_2_is_capture" = fb !! "is_capture".
Proof.
  intros Hfa Hfb Hfc. destruct (record_move _ fc Hfc) as [move Hm].
  destruct (record_at engine game _ move fs ls Hm Hex)
    as (feat & Hfeat & Hkeys & Hhist & _).
  rewrite Hfc in Hfeat. injection Hfeat as <-.
  rewrite (take_two_more _ _ _ _ Hfa Hfb) in Hkeys, Hhist.
  apply Forall_app in Hkeys as [_ Hkeys].
  apply Forall_cons in Hkeys as [[[pa Hpa] [ca Hca]] Hkeys].
  apply Forall_singleton in Hkeys as [[pb Hpb] [cb Hcb]].
  rewrite (history_fields_two _ _ _ _ _ _ _ _ Hpa Hca Hpb Hcb) in Hhist.
  injection Hhist as <-.
  rewrite !dom_insert_L, move_features_dom, Hpa, Hca, Hpb, Hcb.
  unfold prev_1_keys, prev_2_keys.
  repeat split; eauto; try set_solver; by simplify_map_eq.
Qed.
End Fields.

(** A game of three moves gives three records. *)
Lemma three_records `{L : ChessLib} `{E : ScoreLib} (engine : Engine)
    (game : Game) :
  length (mainline_moves game) = 3 ->
  ∃ fa fb fc ls,
    extract_features_from_game game engine = Ok ([fa; fb; fc], ls).
Proof.
  intros Hlen.
  destruct (extract_lengths engine game) as (fs & ls & Hex & Hfs & _).
  { intros Hnil. by rewrite Hnil in Hlen. }
  rewrite Hlen in Hfs.
  destruct fs as [|fa [|fb [|fc [|? ?]]]]; try discriminate.
  by exists fa, fb, fc, ls.
Qed.

(** ** The check flag *)

(** C8.  The [is_check] field of a move's record is the check status of
    the board before the move is applied; the move itself and the position
    it leads to play no part, so two games that agree up to that move give
    it the same flag. *)
Theorem is_check_before_move `{L : ChessLib} `{E : ScoreLib}
    (engine : Engine) (game : Game) (n : nat) (fs : list Feat)
    (ls : list string) (f : Feat) :
  extract_features_from_game game engine = Ok (fs, ls) ->
  fs !! n = Some f ->
  f !! "is_check" = Some (VBool (is_check (replay game n)))
  ∧ ∀ (game' : Game) (fs' : list Feat) (ls' : list string) (f' : Feat),
      game_board game' = game_board game ->
      take n (mainline_moves game') = take n (mainline_moves game) ->
      extract_features_from_game game' engine = Ok (fs', ls') ->
      fs' !! n = Some f' ->
      f' !! "is_check" = f !! "is_check".
Proof.
  intros Hex Hf. split; [by eapply is_check_field|].
  intros game' fs' ls' f' Hboard Hmoves Hex' Hf'.
  rewrite (is_check_field engine game fs ls Hex n f Hf).
  rewrite (is_check_field engine game' fs' ls' Hex' n f' Hf').
  unfold replay. by rewrite Hboard, Hmoves.
Qed.

Lemma is_check_before_move_witness :
  ∃ fs ls f,
    extract_features_from_game knight_game knight_engine = Ok (fs, ls)
    ∧ fs !! 4 = Some f
    ∧ f !! "is_check" = Some (VBool (is_check (replay knight_game 4)))
    ∧ is_check (replay knight_game 4) = false
    ∧ is_check (replay knight_game 5) = true.
Proof.
  destruct (extract_lengths knight_engine knight_game ltac:(discriminate))
    as (fs & ls & Hex & Hlen & _).
  destruct (lookup_lt_is_Some_2 fs 4) as [f Hf].
  { rewrite Hlen. simpl. lia. }
  exists fs, ls, f. split; [exact Hex|]. split; [exact Hf|].
  split; [exact (proj1 (is_check_before_move _ _ _ _ _ _ Hex Hf))|].
  split; by_evaluation.
Defined.

(** ** History fields *)

(** C2, as the code has it.  The history fields are numbered by position
    in the window of the last two records, oldest first: the first record
    has no [prev_*] field; the second has only the [prev_1_*] fields, taken
    from the first; from the third record on, the [prev_1_*] fields come
    from the record two moves back and the [prev_2_*] fields from the
    immediately preceding one. *)
Theorem history_fields_by_position `{L : ChessLib} `{E : ScoreLib}
    (engine : Engine) (game : Game) (fs : list Feat) (ls : list string) :
  extract_features_from_game game engine = Ok (fs, ls) ->
  (∀ f0, fs !! 0 = Some f0 -> dom f0 = base_keys)
  ∧ (∀ f0 f1, fs !! 0 = Some f0 -> fs !! 1 = Some f1 ->
       dom f1 = base_keys ∪ prev_1_keys
       ∧ is_Some (f0 !! "piece") ∧ is_Some (f0 !! "is_capture")
       ∧ f1 !! "prev_1_piece" = f0 !! "piece"
       ∧ f1 !! "prev_1_is_capture" = f0 !! "is_capture")
  ∧ (∀ n fa fb fc,
       fs !! n = Some fa -> fs !! S n = Some fb -> fs !! S (S n) = Some fc ->
       dom fc = base_keys ∪ prev_1_keys ∪ prev_2_keys
       ∧ is_Some (fa !! "piece") ∧ is_Some (fa !! "is_capture")
       ∧ is_Some (fb !! "piece") ∧ is_Some (fb !! "is_capture")
       ∧ fc !! "prev_1_piece" = fa !! "piece"
       ∧ fc !! "prev_1_is_capture" = fa !! "is_capture"
       ∧ fc !! "prev_2_piece" = fb !! "piece"
       ∧ fc !! "prev_2_is_capture" = fb !! "is_capture").
Proof.
  intros Hex. split; [|split].
  - apply (first_record engine game fs ls Hex).
  - apply (second_record engine game fs ls Hex).
  - apply (later_record engine game fs ls Hex).
Qed.

Lemma history_fields_by_position_witness :
  ∃ fa fb fc ls,
    extract_features_from_game king_first_game knight_engine
    = Ok ([fa; fb; fc], ls)
    ∧ dom fa = base_keys
    ∧ dom fb = base_keys ∪ prev_1_keys
    ∧ fb !! "prev_1_piece" = fa !! "piece"
    ∧ fc !! "prev_1_piece" = fa !! "piece"
    ∧ fc !! "prev_2_piece" = fb !! "piece".
Proof.
  destruct (three_records knight_engine king_first_game eq_refl)
    as (fa & fb & fc & ls & Hex).
  exists fa, fb, fc, ls. split; [exact Hex|].
  destruct (history_fields_by_position knight_engine king_first_game _ _ Hex)
    as (H0 & H1 & H2).
  split; [exact (H0 fa eq_refl)|].
  destruct (H1 fa fb eq_refl eq_refl) as (Hdom & _ & _ & Hp & _).
  split; [exact Hdom|]. split; [exact Hp|].
  destruct (H2 0 fa fb fc eq_refl eq_refl eq_refl)
    as (_ & _ & _ & _ & _ & Hp1 & _ & Hp2 & _).
  split; [exact Hp1|exact Hp2].
Defined.

(** C2 as stated fails on the third record: after a king move and a
    knight move, [prev_1_piece] is the king (two moves back), not the
    knight of the immediately preceding move, and [prev_2_piece] is the
    knight. *)
Lemma history_not_by_recency :
  record_field king_first_result 0 "piece" = Some (VInt 6)
  ∧ record_field king_first_result 1 "piece" = Some (VInt 2)
  ∧ record_field king_first_result 2 "prev_1_piece" = Some (VInt 6)
  ∧ record_field king_first_result 2 "prev_2_piece" = Some (VInt 2)
  ∧ record_field king_first_result 2 "prev_1_piece"
    ≠ record_field king_first_result 1 "piece"
  ∧ record_field king_first_result 2 "prev_2_piece"
    ≠ record_field king_first_result 0 "piece".
Proof.
  destruct (three_records knight_engine king_first_game eq_refl)
    as (fa & fb & fc & ls & Hex).
  unfold king_first_result. rewrite Hex. simpl.
  assert (Ha : fa !! "piece" = Some (VInt 6)).
  { by rewrite (piece_field _ _ _ _ Hex 0 Ke2 fa eq_refl eq_refl). }
  assert (Hb : fb !! "piece" = Some (VInt 2)).
  { by rewrite (piece_field _ _ _ _ Hex 1 Nc6 fb eq_refl eq_refl). }
  destruct (later_record _ _ _ _ Hex 0 fa fb fc eq_refl eq_refl eq_refl)
    as (_ & _ & _ & _ & _ & -> & _ & -> & _).
  rewrite Ha, Hb. repeat split; discriminate.
Qed.

(** ** Evaluations *)

Lemma negate_involutive (s : SpecScore) : negate (negate s) = s.
Proof.
  destruct s as [cp|wins|]; simpl; [|by rewrite negb_involutive|done].
  by rewrite Z.opp_involutive.
Qed.

Lemma spec_white_flip (p : SpecPovScore) :
  spec_white (flip_pov p) = spec_white p.
Proof.
  destruct p as [s [|]]; unfold spec_white, flip_pov; simpl; [|done].
  apply negate_involutive.
Qed.

(** The engine with every answer restated from the other side. *)
Lemma run_moves_flip `{L : ChessLib} (engine : @Engine L SpecScores)
    (game : Game) (moves : list Move) :
  @run_moves L SpecScores (fun b depth => flip_pov (engine b depth)) game moves
  = @run_moves L SpecScores engine game moves.
Proof.
  unfold run_moves. generalize (initial_state game).
  induction moves as [|move moves IH]; intros st; simpl; [done|].
  assert (Hbody : @loop_body L SpecScores
                    (fun b depth => flip_pov (engine b depth)) st move
                  = @loop_body L SpecScores engine st move).
  { unfold loop_body, eval_after. simpl. by rewrite spec_white_flip. }
  rewrite Hbody.
  destruct (@loop_body L SpecScores engine st move); simpl; [apply IH|done].
Qed.

(** C4.  The baseline of a move's difference is the evaluation stored for
    the move before it, and 0 for the first move.  Every evaluation is the
    engine's answer seen from white's side, whichever side the answer was
    relative to: a centipawn score relative to black is negated, a mate is
    10000 when white mates and -10000 when black does, and the same
    assessment stated from the other side gives the same number. *)
Theorem evaluations_from_white `{L : ChessLib} (engine : @Engine L SpecScores)
    (game : Game) (n : nat) (move : Move) :
  mainline_moves game !! n = Some move ->
  let previous := @eval_at L SpecScores engine game n in
  let current := @eval_at L SpecScores engine game (S n) in
  let answer : SpecPovScore := engine (replay game (S n)) 12 in
  @eval_at L SpecScores engine game 0 = 0%Z
  ∧ (∃ fs ls,
       @extract_features_from_game L SpecScores game engine = Ok (fs, ls)
       ∧ ls !! n = Some (label_of (previous - current)))
  ∧ current = default previous (spec_score (spec_white answer) 10000)
  ∧ (∀ cp, relative answer = Cp cp ->
       current = if pov answer then cp else (- cp)%Z)
  ∧ (∀ wins, relative answer = Mate wins ->
       current = (if Bool.eqb wins (pov answer) then 10000 else -10000)%Z
       ∧ Z.abs current = 10000%Z)
  ∧ (relative answer = NoScore -> current = previous)
  ∧ @eval_at L SpecScores (fun b depth => flip_pov (engine b depth)) game (S n)
    = current.
Proof.
  intros Hn previous current answer.
  destruct (step_at (E := SpecScores) engine game n move Hn)
    as (st_n & st & feat & _ & _ & _ & _ & _ & Hrun & _ & Hl & He).
  destruct (extract_returns (E := SpecScores) engine game n move Hn)
    as (st' & Hrun' & Hex).
  rewrite Hrun in Hrun'. injection Hrun' as <-.
  assert (Hcur : current
                 = default previous (spec_score (spec_white answer) 10000)).
  { unfold current. rewrite He. unfold eval_after. simpl.
    fold answer. by destruct (spec_score (spec_white answer) 10000). }
  split; [apply eval_at_0|]. split; [eauto|]. split; [done|].
  rewrite Hcur. unfold spec_white.
  split; [|split; [|split]].
  - intros cp ->. by destruct (pov answer).
  - intros wins ->. by destruct (pov answer), wins.
  - intros ->. by destruct (pov answer).
  - unfold eval_at. by rewrite run_moves_flip.
Qed.

Lemma evaluations_from_white_witness :
  mainline_moves knight_game !! 3 = Some Nd4
  ∧ eval_at knight_engine knight_game 0 = 0%Z
  ∧ relative (knight_engine (replay knight_game 4) 12) = Mate true
  ∧ pov (knight_engine (replay knight_game 4) 12) = WHITE
  ∧ eval_at knight_engine knight_game 4 = 10000%Z.
Proof.
  assert (Hn : mainline_moves knight_game !! 3 = Some Nd4) by reflexivity.
  assert (Hmate : relative (knight_engine (replay knight_game 4) 12) = Mate true)
    by by_evaluation.
  assert (Hpov : pov (knight_engine (replay knight_game 4) 12) = WHITE)
    by by_evaluation.
  destruct (evaluations_from_white knight_engine knight_game 3 Nd4 Hn)
    as (H0 & _ & _ & _ & Hm & _).
  split; [exact Hn|]. split; [exact H0|]. split; [exact Hmate|].
  split; [exact Hpov|].
  destruct (Hm true Hmate) as [Hcur _]. rewrite Hpov in Hcur. exact Hcur.
Defined.

(** ** Counting squares *)

Lemma filter_length_sum {A : Type} (P : A -> bool) (l : list A) :
  length (List.filter P l) = sum_list_with (fun x => if P x then 1 else 0) l.
Proof.
  induction l as [|x l IH]; simpl; [done|]. destruct (P x); simpl; lia.
Qed.

(** Mirroring permutes the 64 squares, so a sum over them is unchanged. *)
Lemma sum_mirror (f : Square -> nat) :
  sum_list_with (fun sq => f (square_mirror sq)) SQUARES
  = sum_list_with f SQUARES.
Proof.
  cbv [SQUARES seq sum_list_with square_mirror].
  repeat match goal with
         | |- context [Nat.lxor ?a 56] =>
             let v := eval vm_compute in (Nat.lxor a 56) in
             change (Nat.lxor a 56) with v
         end.
  lia.
Qed.

Lemma filter_mirror (P : Square -> bool) :
  length (List.filter (fun sq => P (square_mirror sq)) SQUARES)
  = length (List.filter P SQUARES).
Proof.
  rewrite !filter_length_sum.
  apply (sum_mirror (fun sq => if P sq then 1 else 0)).
Qed.

Lemma count_mirror (P : Square -> bool) :
  count_squares (fun sq => P (square_mirror sq)) = count_squares P.
Proof. unfold count_squares. f_equal. apply filter_mirror. Qed.

Lemma count_ext (P Q : Square -> bool) :
  (∀ sq, sq < 64 -> P sq = Q sq) -> count_squares P = count_squares Q.
Proof.
  intros HPQ. unfold count_squares. f_equal. f_equal.
  apply List.filter_ext_in. intros sq Hsq. apply HPQ.
  apply in_seq in Hsq. lia.
Qed.

(** ** Material balance *)

Lemma on_square_mirror (board : BaseBoard) (pt : PieceType) (c : Color)
    (sq : Square) :
  on_square (mirror board) pt c sq
  = on_square board pt (negb c) (square_mirror sq).
Proof.
  unfold on_square, mirror.
  destruct (board (square_mirror sq)) as [[pt' c']|]; simpl; [|done].
  f_equal. by destruct c, c'.
Qed.

Lemma pieces_mirror (board : BaseBoard) (pt : PieceType) (c : Color) :
  Z.of_nat (length (pieces (mirror board) pt c))
  = Z.of_nat (length (pieces board pt (negb c))).
Proof.
  unfold pieces. f_equal.
  rewrite <- (filter_mirror (on_square board pt (negb c))). f_equal.
  apply List.filter_ext. intros sq. apply on_square_mirror.
Qed.

(** C9.  The material balance of the colour-swapped mirror of a board is
    the negation of the board's: the sign flips, the magnitude is equal. *)
Theorem material_balance_mirror (board : BaseBoard) :
  material_balance (mirror board) = (- material_balance board)%Z
  ∧ Z.abs (material_balance (mirror board)) = Z.abs (material_balance board).
Proof.
  assert (H : material_balance (mirror board) = (- material_balance board)%Z).
  { unfold material_balance, values. cbn [fold_left].
    rewrite !pieces_mirror. unfold WHITE, BLACK. simpl negb. lia. }
  split; [exact H|]. rewrite H. apply Z.abs_opp.
Qed.

(** ** Developed pieces *)

Lemma fold_count (P : Square -> bool) (l : list Square) (dev : Z) :
  fold_left (fun dev sq => if P sq then (dev + 1)%Z else dev) l dev
  = (dev + Z.of_nat (length (List.filter P l)))%Z.
Proof.
  revert dev. induction l as [|sq l IH]; intros dev; simpl; [lia|].
  rewrite IH. destruct (P sq); simpl; lia.
Qed.

Lemma filter_twice {A : Type} (P Q : A -> bool) (l : list A) :
  List.filter P (List.filter Q l) = List.filter (fun x => Q x && P x) l.
Proof.
  induction l as [|x l IH]; [done|]. cbn [List.filter].
  destruct (Q x); cbn [List.filter andb]; by rewrite IH.
Qed.

(** Four disjoint selections of a list, counted together. *)
Lemma filter_length_add4 {A : Type} (P1 P2 P3 P4 R : A -> bool) (l : list A) :
  (∀ x, (if P1 x then 1 else 0) + (if P2 x then 1 else 0)
        + (if P3 x then 1 else 0) + (if P4 x then 1 else 0)
        = if R x then 1 else 0) ->
  length (List.filter P1 l) + length (List.filter P2 l)
  + length (List.filter P3 l) + length (List.filter P4 l)
  = length (List.filter R l).
Proof.
  intros Hsum. rewrite !filter_length_sum.
  induction l as [|x l IH]; [done|]. cbn [sum_list_with].
  rewrite <- IH, <- (Hsum x). lia.
Qed.

Lemma developed_count (board : BaseBoard) (PW PB : Square -> bool)
    (l : list Square) :
  length (List.filter PW (List.filter (on_square board BISHOP WHITE) l))
  + length (List.filter PB (List.filter (on_square board BISHOP BLACK) l))
  + length (List.filter PW (List.filter (on_square board KNIGHT WHITE) l))
  + length (List.filter PB (List.filter (on_square board KNIGHT BLACK) l))
  = length
      (List.filter
         (fun sq =>
            match board sq with
            | Some p =>
                is_minor (piece_type p) && (if color p then PW sq else PB sq)
            | None => false
            end) l).
Proof.
  rewrite !filter_twice. apply filter_length_add4. intros sq.
  unfold on_square. destruct (board sq) as [[[] []]|]; simpl;
    try destruct (PW sq); try destruct (PB sq); reflexivity.
Qed.

(** The two nested loops, for any way of listing the pieces. *)
Lemma developed_fold (pcs : PieceType -> Color -> list Square) :
  fold_left
    (fun dev pt =>
       let dev :=
         fold_left
           (fun dev sq =>
              if negb (sq_in sq [B1; G1; C1; F1]) then (dev + 1)%Z else dev)
           (pcs pt WHITE) dev in
       fold_left
         (fun dev sq =>
            if negb (sq_in sq [B8; G8; C8; F8]) then (dev + 1)%Z else dev)
         (pcs pt BLACK) dev)
    minors 0%Z
  = Z.of_nat
      (length (List.filter (fun sq => negb (sq_in sq [B1; G1; C1; F1]))
                 (pcs BISHOP WHITE))
       + length (List.filter (fun sq => negb (sq_in sq [B8; G8; C8; F8]))
                   (pcs BISHOP BLACK))
       + length (List.filter (fun sq => negb (sq_in sq [B1; G1; C1; F1]))
                   (pcs KNIGHT WHITE))
       + length (List.filter (fun sq => negb (sq_in sq [B8; G8; C8; F8]))
                   (pcs KNIGHT BLACK))).
Proof. unfold minors. cbn [fold_left]. rewrite !fold_count. lia. Qed.

Lemma developed_pieces_count (board : BaseBoard) :
  developed_pieces board = count_squares (developed_on board).
Proof.
  etransitivity; [exact (developed_fold (pieces board))|].
  unfold count_squares, pieces. f_equal. rewrite developed_count. f_equal.
  apply List.filter_ext. intros sq. unfold developed_on, minor_home.
  by destruct (board sq) as [[pt []]|].
Qed.

(** The minor-piece squares of the two colours mirror each other. *)
Lemma minor_home_mirror (sq : Square) (c : Color) :
  sq < 64 ->
  sq_in sq (minor_home (negb c)) = sq_in (square_mirror sq) (minor_home c).
Proof.
  intros Hsq. do 64 (destruct sq as [|sq]; [by destruct c|]). lia.
Qed.

(** C7, as the code has it.  [developed_pieces] counts the bishops and
    knights of both colours that stand off the four squares on which the
    minor pieces of their own colour start (b1, c1, f1, g1 for white; b8,
    c8, f8, g8 for black), whichever minor piece started there; white and
    black are counted alike, so the colour-swapped mirror of a board has
    the same count. *)
Theorem developed_pieces_counts (board : BaseBoard) :
  developed_pieces board = count_squares (developed_on board)
  ∧ developed_pieces (mirror board) = developed_pieces board.
Proof.
  split; [apply developed_pieces_count|].
  rewrite !developed_pieces_count, <- (count_mirror (developed_on board)).
  apply count_ext. intros sq Hsq. unfold developed_on, mirror.
  destruct (board (square_mirror sq)) as [[pt c]|]; simpl; [|done].
  by rewrite (minor_home_mirror sq c Hsq).
Qed.

(** C7 as stated fails for a white knight on f1: it is off the starting
    squares of the knights (b1 and g1), yet it is not counted. *)
Lemma knight_on_f1_not_counted :
  lone (mkPiece KNIGHT WHITE) F1 F1 = Some (mkPiece KNIGHT WHITE)
  ∧ sq_in F1 (own_home KNIGHT WHITE) = false
  ∧ count_squares (off_own_square (lone (mkPiece KNIGHT WHITE) F1)) = 1%Z
  ∧ developed_pieces (lone (mkPiece KNIGHT WHITE) F1) = 0%Z
  ∧ developed_pieces (lone (mkPiece KNIGHT WHITE) F1)
    ≠ count_squares (off_own_square (lone (mkPiece KNIGHT WHITE) F1)).
Proof. vm_compute. repeat split; discriminate. Qed.

(** ** The driver *)

Lemma add_rows_app (rows feats : list Feat) (labels : list string) :
  add_rows rows feats labels = rows ++ add_rows [] feats labels.
Proof.
  unfold add_rows. generalize (zip feats labels). intros items. revert rows.
  induction items as [|[feat label] items IH]; intros rows;
    cbn [fold_left]; [by rewrite app_nil_r|].
  rewrite (IH (rows ++ _)), (IH ([] ++ _)). by rewrite <- app_assoc.
Qed.

Section Driver.
Context `{L : ChessLib} `{E : ScoreLib}.
Variable engine : Engine.

(** As long as every game read has a move, the loop reads the games in
    order until 500 are counted or the archive ends, and never runs out of
    fuel when given one unit per game still allowed. *)
Lemma read_games_with_moves (fuel : nat) (games : list Game) (count : Z)
    (rows : list Feat) :
  (0 <= count <= 500)%Z ->
  Z.to_nat (500 - count) <= fuel ->
  Forall (fun game => mainline_moves game ≠ [])
    (take (Z.to_nat (500 - count)) games) ->
  read_games fuel engine games count rows
  = Some (Ok ((count + Z.of_nat (length (take (Z.to_nat (500 - count)) games)))%Z,
              rows ++ dataset_rows engine (take (Z.to_nat (500 - count)) games))).
Proof.
  revert games count rows.
  induction fuel as [|fuel IH]; intros games count rows Hcount Hfuel Hmoves.
  - assert (count = 500%Z) as -> by lia. simpl. by rewrite app_nil_r.
  - cbn [read_games]. destruct (Z.ltb_spec count 500) as [Hlt|Hge].
    2: { assert (count = 500%Z) as -> by lia. simpl. by rewrite app_nil_r. }
    assert (Hnext : Z.to_nat (500 - count) = S (Z.to_nat (500 - (count + 1))))
      by lia.
    rewrite Hnext in Hmoves |- *.
    destruct games as [|game games]; cbn [read_game].
    { simpl. f_equal. f_equal. f_equal; [lia|by rewrite app_nil_r]. }
    cbn [take] in Hmoves |- *. apply Forall_cons in Hmoves as [Hgame Hmoves].
    destruct (extract_lengths engine game Hgame) as (feats & labels & Hex & _).
    cbn [dataset_rows length]. rewrite Hex.
    rewrite (IH games (count + 1)%Z _ ltac:(lia) ltac:(lia) Hmoves).
    f_equal. f_equal. f_equal; [lia|].
    by rewrite (add_rows_app rows), <- app_assoc.
Qed.

(** A game without moves among the games read ends the run with the
    exception of the extraction. *)
Lemma read_games_no_moves (fuel : nat) (before after : list Game)
    (game : Game) (count : Z) (rows : list Feat) :
  (0 <= count)%Z ->
  (count + Z.of_nat (length before) < 500)%Z ->
  length before < fuel ->
  Forall (fun game => mainline_moves game ≠ []) before ->
  mainline_moves game = [] ->
  read_games fuel engine (before ++ game :: after) count rows
  = Some (Raise IndexError).
Proof.
  revert before count rows.
  induction fuel as [|fuel IH]; intros before count rows Hcount Hlt Hfuel
    Hmoves Hnone; [lia|].
  cbn [read_games]. destruct (Z.ltb_spec count 500) as [_|Hge]; [|lia].
  destruct before as [|first before]; cbn [app read_game].
  - by rewrite (extract_no_moves engine game Hnone).
  - apply Forall_cons in Hmoves as [Hfirst Hmoves].
    destruct (extract_lengths engine first Hfirst) as (feats & labels & -> & _).
    cbn [length] in Hlt, Hfuel. apply IH; try done; lia.
Qed.

Lemma build_dataset_with_moves (games : list Game) :
  Forall (fun game => mainline_moves game ≠ []) (take 500 games) ->
  build_dataset games engine
  = Some (Ok (Z.of_nat (length games `min` 500),
              dataset_rows engine (take 500 games))).
Proof.
  intros Hmoves. unfold build_dataset.
  rewrite (read_games_with_moves 500 games 0 []); try done; try lia.
  change (Z.to_nat (500 - 0)) with 500.
  rewrite length_take, Nat.min_comm, Z.add_0_l. reflexivity.
Qed.
End Driver.

(** C6.  The run does not end cleanly for every archive: one game without
    moves makes the extraction raise, and the exception leaves
    [build_dataset] before any row is written. *)
Theorem build_dataset_aborts_on_no_moves :
  build_dataset [no_moves_game] knight_engine = Some (Raise IndexError).
Proof. vm_compute. reflexivity. Qed.

(** * Further properties of the code *)

(** ** Sums over squares *)

Lemma lxor_56_involutive (sq : Square) :
  square_mirror (square_mirror sq) = sq.
Proof.
  unfold square_mirror.
  by rewrite Nat.lxor_assoc, Nat.lxor_nilpotent, Nat.lxor_0_r.
Qed.

Lemma square_mirror_lt (sq : Square) : sq < 64 -> square_mirror sq < 64.
Proof.
  intros Hsq. do 64 (destruct sq as [|sq]; [vm_compute; lia|]). lia.
Qed.

Lemma sum_with_mirror (f : Square -> Z) :
  sum_with (fun sq => f (square_mirror sq)) SQUARES = sum_with f SQUARES.
Proof.
  cbv [SQUARES seq sum_with fold_right square_mirror].
  repeat match goal with
         | |- context [Nat.lxor ?a 56] =>
             let v := eval vm_compute in (Nat.lxor a 56) in
             change (Nat.lxor a 56) with v
         end.
  lia.
Qed.

Lemma sum_with_ext (f g : Square -> Z) (l : list Square) :
  (∀ sq, sq ∈ l -> f sq = g sq) -> sum_with f l = sum_with g l.
Proof.
  induction l as [|sq l IH]; intros Hfg; [done|]. cbn [sum_with fold_right].
  fold (sum_with f l). fold (sum_with g l).
  rewrite IH, (Hfg sq); [done|apply list_elem_of_here|].
  intros sq' Hsq'. apply Hfg. by apply list_elem_of_further.
Qed.

Lemma sum_with_opp (f : Square -> Z) (l : list Square) :
  sum_with (fun sq => (- f sq)%Z) l = (- sum_with f l)%Z.
Proof.
  induction l as [|sq l IH]; [done|]. cbn [sum_with fold_right].
  fold (sum_with f l). fold (sum_with (fun sq => (- f sq)%Z) l). lia.
Qed.

Lemma squares_lt (sq : Square) : sq ∈ SQUARES ↔ sq < 64.
Proof. unfold SQUARES. rewrite list_elem_of_In, in_seq. lia. Qed.

Lemma filter_length_cons {A : Type} (P : A -> bool) (x : A) (l : list A) :
  length (List.filter P (x :: l))
  = (if P x then 1 else 0) + length (List.filter P l).
Proof. cbn [List.filter]. by destruct (P x). Qed.

Lemma sum_with_bound (f : Square -> Z) (bound : Z) (l : list Square) :
  (∀ sq, - bound <= f sq <= bound)%Z ->
  (- (bound * Z.of_nat (length l)) <= sum_with f l
   <= bound * Z.of_nat (length l))%Z.
Proof.
  intros Hf. induction l as [|sq l IH]; [simpl; lia|].
  cbn [sum_with fold_right length]. fold (sum_with f l).
  pose proof (Hf sq). lia.
Qed.

(** ** Material balance, square by square *)

(** The loop over the piece values, for any way of listing the pieces. *)
Lemma material_fold (pcs : PieceType -> Color -> list Square) :
  fold_left
    (fun score '(pt, val) =>
       let score := (score + Z.of_nat (length (pcs pt WHITE)) * val)%Z in
       (score - Z.of_nat (length (pcs pt BLACK)) * val)%Z)
    values 0%Z
  = (Z.of_nat (length (pcs PAWN WHITE)) - Z.of_nat (length (pcs PAWN BLACK))
     + 3 * (Z.of_nat (length (pcs KNIGHT WHITE))
            - Z.of_nat (length (pcs KNIGHT BLACK)))
     + 3 * (Z.of_nat (length (pcs BISHOP WHITE))
            - Z.of_nat (length (pcs BISHOP BLACK)))
     + 5 * (Z.of_nat (length (pcs ROOK WHITE))
            - Z.of_nat (length (pcs ROOK BLACK)))
     + 9 * (Z.of_nat (length (pcs QUEEN WHITE))
            - Z.of_nat (length (pcs QUEEN BLACK))))%Z.
Proof. unfold values. cbn [fold_left]. lia. Qed.

Lemma material_count (board : BaseBoard) (l : list Square) :
  (Z.of_nat (length (List.filter (on_square board PAWN WHITE) l))
   - Z.of_nat (length (List.filter (on_square board PAWN BLACK) l))
   + 3 * (Z.of_nat (length (List.filter (on_square board KNIGHT WHITE) l))
          - Z.of_nat (length (List.filter (on_square board KNIGHT BLACK) l)))
   + 3 * (Z.of_nat (length (List.filter (on_square board BISHOP WHITE) l))
          - Z.of_nat (length (List.filter (on_square board BISHOP BLACK) l)))
   + 5 * (Z.of_nat (length (List.filter (on_square board ROOK WHITE) l))
          - Z.of_nat (length (List.filter (on_square board ROOK BLACK) l)))
   + 9 * (Z.of_nat (length (List.filter (on_square board QUEEN WHITE) l))
          - Z.of_nat (length (List.filter (on_square board QUEEN BLACK) l))))%Z
  = sum_with (material_on board) l.
Proof.
  induction l as [|sq l IH]; [done|].
  rewrite !filter_length_cons, !Nat2Z.inj_add.
  cbn [sum_with fold_right]. fold (sum_with (material_on board) l).
  rewrite <- IH.
  repeat match goal with
         | |- context [length (List.filter ?P l)] =>
             generalize (length (List.filter P l)); intro
         end.
  unfold on_square, material_on.
  destruct (board sq) as [[[] []]|]; simpl; lia.
Qed.

Lemma material_on_bound (board : BaseBoard) (sq : Square) :
  (- 9 <= material_on board sq <= 9)%Z.
Proof.
  unfold material_on. destruct (board sq) as [[[] []]|]; simpl; lia.
Qed.

(** X1.  The material balance is the sum, over the 64 squares, of the value
    of the piece standing there (pawn 1, knight 3, bishop 3, rook 5, queen
    9, king 0), counted positively for white and negatively for black; it
    therefore lies between -576 and 576. *)
Theorem material_balance_by_square (board : BaseBoard) :
  material_balance board = sum_with (material_on board) SQUARES
  ∧ (- 576 <= material_balance board <= 576)%Z.
Proof.
  assert (H : material_balance board = sum_with (material_on board) SQUARES).
  { etransitivity; [exact (material_fold (pieces board))|].
    unfold pieces. apply material_count. }
  split; [exact H|]. rewrite H.
  pose proof (sum_with_bound (material_on board) 9 SQUARES
                (material_on_bound board)) as Hb.
  change (length SQUARES) with 64 in Hb. lia.
Qed.

(** ** Opponent threats *)

(** X2.  The opponent threat count is the number of the 64 squares that
    the side not to move attacks, and so lies between 0 and 64. *)
Theorem opponent_threat_count_range `{L : ChessLib} (b : Board) :
  opponent_threat_count b
  = count_squares (is_attacked_by b (negb (turn b)))
  ∧ (0 <= opponent_threat_count b <= 64)%Z.
Proof.
  assert (H : opponent_threat_count b
              = count_squares (is_attacked_by b (negb (turn b)))).
  { unfold opponent_threat_count, count_squares.
    rewrite (fold_count (is_attacked_by b (negb (turn b)))). lia. }
  split; [exact H|]. rewrite H. unfold count_squares.
  pose proof (List.filter_length_le (is_attacked_by b (negb (turn b))) SQUARES)
    as Hle.
  change (length SQUARES) with 64 in Hle. lia.
Qed.

(** ** The piece-square score, square by square *)

Lemma fold_add (g : Square -> Z) (l : list Square) (score : Z) :
  fold_left (fun score sq => (score + g sq)%Z) l score
  = (score + sum_with g l)%Z.
Proof.
  revert score. induction l as [|sq l IH]; intros score; simpl; [lia|].
  rewrite IH. fold (sum_with g l). lia.
Qed.

Lemma fold_sub (g : Square -> Z) (l : list Square) (score : Z) :
  fold_left (fun score sq => (score - g sq)%Z) l score
  = (score - sum_with g l)%Z.
Proof.
  revert score. induction l as [|sq l IH]; intros score; simpl; [lia|].
  rewrite IH. fold (sum_with g l). lia.
Qed.

Lemma sum_with_filter_cons (g : Square -> Z) (P : Square -> bool)
    (sq : Square) (l : list Square) :
  sum_with g (List.filter P (sq :: l))
  = ((if P sq then g sq else 0) + sum_with g (List.filter P l))%Z.
Proof. cbn [List.filter]. by destruct (P sq). Qed.

(** The two nested loops of the score, for any way of listing the
    pieces. *)
Lemma pst_fold (pcs : PieceType -> Color -> list Square) :
  fold_left
    (fun score piece =>
       let score :=
         fold_left (fun score sq => (score + nth sq (pst piece) 0)%Z)
           (pcs piece WHITE) score in
       fold_left
         (fun score sq => (score - nth (square_mirror sq) (pst piece) 0)%Z)
         (pcs piece BLACK) score)
    PIECE_TYPES 0%Z
  = (sum_with (fun sq => nth sq (pst PAWN) 0%Z) (pcs PAWN WHITE)
     - sum_with (fun sq => nth (square_mirror sq) (pst PAWN) 0%Z)
         (pcs PAWN BLACK)
     + sum_with (fun sq => nth sq (pst KNIGHT) 0%Z) (pcs KNIGHT WHITE)
     - sum_with (fun sq => nth (square_mirror sq) (pst KNIGHT) 0%Z)
         (pcs KNIGHT BLACK)
     + sum_with (fun sq => nth sq (pst BISHOP) 0%Z) (pcs BISHOP WHITE)
     - sum_with (fun sq => nth (square_mirror sq) (pst BISHOP) 0%Z)
         (pcs BISHOP BLACK)
     + sum_with (fun sq => nth sq (pst ROOK) 0%Z) (pcs ROOK WHITE)
     - sum_with (fun sq => nth (square_mirror sq) (pst ROOK) 0%Z)
         (pcs ROOK BLACK)
     + sum_with (fun sq => nth sq (pst QUEEN) 0%Z) (pcs QUEEN WHITE)
     - sum_with (fun sq => nth (square_mirror sq) (pst QUEEN) 0%Z)
         (pcs QUEEN BLACK)
     + sum_with (fun sq => nth sq (pst KING) 0%Z) (pcs KING WHITE)
     - sum_with (fun sq => nth (square_mirror sq) (pst KING) 0%Z)
         (pcs KING BLACK))%Z.
Proof.
  unfold PIECE_TYPES. cbn [fold_left].
  rewrite !(fold_sub (fun sq => nth (square_mirror sq) (pst _) 0%Z)).
  rewrite !(fold_add (fun sq => nth sq (pst _) 0%Z)). lia.
Qed.

Lemma pst_count (board : BaseBoard) (l : list Square) :
  (sum_with (fun sq => nth sq (pst PAWN) 0%Z)
     (List.filter (on_square board PAWN WHITE) l)
   - sum_with (fun sq => nth (square_mirror sq) (pst PAWN) 0%Z)
       (List.filter (on_square board PAWN BLACK) l)
   + sum_with (fun sq => nth sq (pst KNIGHT) 0%Z)
       (List.filter (on_square board KNIGHT WHITE) l)
   - sum_with (fun sq => nth (square_mirror sq) (pst KNIGHT) 0%Z)
       (List.filter (on_square board KNIGHT BLACK) l)
   + sum_with (fun sq => nth sq (pst BISHOP) 0%Z)
       (List.filter (on_square board BISHOP WHITE) l)
   - sum_with (fun sq => nth (square_mirror sq) (pst BISHOP) 0%Z)
       (List.filter (on_square board BISHOP BLACK) l)
   + sum_with (fun sq => nth sq (pst ROOK) 0%Z)
       (List.filter (on_square board ROOK WHITE) l)
   - sum_with (fun sq => nth (square_mirror sq) (pst ROOK) 0%Z)
       (List.filter (on_square board ROOK BLACK) l)
   + sum_with (fun sq => nth sq (pst QUEEN) 0%Z)
       (List.filter (on_square board QUEEN WHITE) l)
   - sum_with (fun sq => nth (square_mirror sq) (pst QUEEN) 0%Z)
       (List.filter (on_square board QUEEN BLACK) l)
   + sum_with (fun sq => nth sq (pst KING) 0%Z)
       (List.filter (on_square board KING WHITE) l)
   - sum_with (fun sq => nth (square_mirror sq) (pst KING) 0%Z)
       (List.filter (on_square board KING BLACK) l))%Z
  = sum_with (pst_on board) l.
Proof.
  induction l as [|sq l IH]; [done|].
  rewrite !sum_with_filter_cons.
  cbn [sum_with fold_right]. fold (sum_with (pst_on board) l).
  rewrite <- IH.
  repeat match goal with
         | |- context [sum_with ?g (List.filter ?P l)] =>
             generalize (sum_with g (List.filter P l)); intro
         end.
  unfold on_square, pst_on.
  destruct (board sq) as [[[] []]|]; cbn [piece_type color bool_decide andb];
    simpl bool_decide; cbn [andb]; lia.
Qed.

Lemma piece_square_sum (board : BaseBoard) :
  piece_square_table board = sum_with (pst_on board) SQUARES.
Proof.
  etransitivity; [exact (pst_fold (pieces board))|].
  unfold pieces. apply pst_count.
Qed.

Lemma nth_replicate_zero (i n : nat) : nth i (replicate n 0%Z) 0%Z = 0%Z.
Proof.
  revert i. induction n as [|n IH]; intros [|i]; simpl; try done.
Qed.

(** X3.  The piece-square score is the sum, over the 64 squares, of the
    table value of the piece standing there: read at the square for a
    white piece, read at the mirrored square and subtracted for a black
    one.  Only pawns and knights have a table: a square holding any other
    piece, or none, adds nothing. *)
Theorem piece_square_by_square (board : BaseBoard) :
  piece_square_table board = sum_with (pst_on board) SQUARES
  ∧ (∀ sq, board sq = None -> pst_on board sq = 0%Z)
  ∧ (∀ sq p, board sq = Some p ->
       piece_type p ≠ PAWN -> piece_type p ≠ KNIGHT ->
       pst_on board sq = 0%Z).
Proof.
  split; [apply piece_square_sum|]. split.
  - intros sq Hsq. unfold pst_on. by rewrite Hsq.
  - intros sq [pt c] Hsq Hpawn Hknight. unfold pst_on. rewrite Hsq.
    cbn [piece_type color] in *.
    assert (Hpst : pst pt = replicate 64 0%Z) by (by destruct pt).
    rewrite Hpst, !nth_replicate_zero. by destruct c.
Qed.

Lemma piece_square_by_square_witness :
  lone (mkPiece ROOK WHITE) 12 12 = Some (mkPiece ROOK WHITE)
  ∧ pst_on (lone (mkPiece ROOK WHITE) 12) 12 = 0%Z.
Proof.
  split; [reflexivity|].
  exact (proj2 (proj2 (piece_square_by_square (lone (mkPiece ROOK WHITE) 12)))
           12 (mkPiece ROOK WHITE) eq_refl ltac:(discriminate)
           ltac:(discriminate)).
Defined.

(** X4.  Each table has 64 entries, so reading it at a square or at a
    mirrored square never fails; the 8-value row is repeated for every
    rank, so the value read depends on the file of the square alone, and
    the mirrored square (same file) gives the same value as the square
    itself. *)
Theorem pst_value_by_file (pt : PieceType) (sq : Square) :
  sq < 64 ->
  length (pst pt) = 64
  ∧ square_mirror sq < 64
  ∧ nth sq (pst pt) 0%Z = nth (sq mod 8) (pst_row pt) 0%Z
  ∧ nth (square_mirror sq) (pst pt) 0%Z = nth sq (pst pt) 0%Z.
Proof.
  intros Hsq. split; [by destruct pt|].
  split; [by apply square_mirror_lt|].
  do 64 (destruct sq as [|sq]; [by destruct pt|]). lia.
Qed.

Lemma pst_value_by_file_witness :
  12 < 64
  ∧ nth 12 (pst PAWN) 0%Z = 5%Z
  ∧ nth (square_mirror 12) (pst PAWN) 0%Z = nth 12 (pst PAWN) 0%Z.
Proof.
  assert (H : 12 < 64) by lia. split; [exact H|].
  destruct (pst_value_by_file PAWN 12 H) as (_ & _ & Hrow & Hmirror).
  split; [exact Hrow|exact Hmirror].
Defined.

Lemma pst_on_mirror (board : BaseBoard) (sq : Square) :
  pst_on (mirror board) sq = (- pst_on board (square_mirror sq))%Z.
Proof.
  unfold pst_on, mirror.
  destruct (board (square_mirror sq)) as [[pt []]|]; simpl;
    rewrite ?lxor_56_involutive; lia.
Qed.

(** X5.  The piece-square score of the colour-swapped mirror of a board is
    the negation of the board's score. *)
Theorem piece_square_table_mirror (board : BaseBoard) :
  piece_square_table (mirror board) = (- piece_square_table board)%Z.
Proof.
  rewrite !piece_square_sum.
  rewrite (sum_with_ext (pst_on (mirror board))
             (fun sq => (- pst_on board (square_mirror sq))%Z) SQUARES).
  - rewrite (sum_with_opp (fun sq => pst_on board (square_mirror sq))).
    by rewrite (sum_with_mirror (pst_on board)).
  - intros sq _. apply pst_on_mirror.
Qed.

(** ** The loop over the moves *)


Section MoreFields.
Context `{L : ChessLib} `{E : ScoreLib}.
Variable engine : Engine.
Variable game : Game.

(** X7.  The fields of a move's record that describe the position are all
    read before the move is pushed: the move number is the move's rank in
    the mainline counted from 1, the squares are the move's, and the
    capture and castling flags, the position string and the four
    positional features are those of the board on which the move is about
    to be played. *)
Theorem record_fields_before_move (n : nat) (move : Move) (fs : list Feat)
    (ls : list string) (f : Feat) :
  extract_features_from_game game engine = Ok (fs, ls) ->
  mainline_moves game !! n = Some move ->
  fs !! n = Some f ->
  f !! "move_number" = Some (VInt (Z.of_nat n + 1))
  ∧ f !! "from_square" = Some (VInt (Z.of_nat (from_square move)))
  ∧ f !! "to_square" = Some (VInt (Z.of_nat (to_square move)))
  ∧ f !! "is_capture" = Some (VBool (is_capture (replay game n) move))
  ∧ f !! "is_castle" = Some (VBool (is_castling (replay game n) move))
  ∧ f !! "fen" = Some (VStr (fen (replay game n)))
  ∧ f !! "material_balance"
    = Some (VInt (material_balance (base_board (replay game n))))
  ∧ f !! "developed_pieces"
    = Some (VInt (developed_pieces (base_board (replay game n))))
  ∧ f !! "pst_score"
    = Some (VInt (piece_square_table (base_board (replay game n))))
  ∧ f !! "opponent_threats"
    = Some (VInt (opponent_threat_count (replay game n))).
Proof.
  intros Hex Hmove Hf.
  assert (Hbase : ∀ key, ¬ history_key key ->
            f !! key
            = move_features (replay game n) (Z.of_nat n + 1) move !! key)
    by (intros key; by apply (base_field engine game fs ls Hex)).
  repeat split;
    (rewrite Hbase;
     [unfold move_features; cbv zeta; by simplify_map_eq
     |unfold history_key; intros [?|[?|[?|?]]]; discriminate]).
Qed.

(** X8.  The [piece] field is the type code (1 to 6) of the piece on the
    move's origin square before the move, and 0 when that square is
    empty. *)
Theorem piece_field_or_zero (n : nat) (move : Move) (fs : list Feat)
    (ls : list string) (f : Feat) :
  extract_features_from_game game engine = Ok (fs, ls) ->
  mainline_moves game !! n = Some move ->
  fs !! n = Some f ->
  (base_board (replay game n) (from_square move) = None ->
     f !! "piece" = Some (VInt 0))
  ∧ (∀ p, base_board (replay game n) (from_square move) = Some p ->
       f !! "piece" = Some (VInt (piece_type_code (piece_type p)))
       ∧ (1 <= piece_type_code (piece_type p) <= 6)%Z).
Proof.
  intros Hex Hmove Hf.
  pose proof (piece_field engine game fs ls Hex n move f Hmove Hf) as Hpiece.
  split.
  - intros Hnone. by rewrite Hnone in Hpiece.
  - intros p Hp. rewrite Hp in Hpiece. split; [done|].
    destruct (piece_type p); simpl; lia.
Qed.
End MoreFields.

Lemma record_fields_before_move_witness :
  ∃ fs ls f,
    extract_features_from_game knight_game knight_engine = Ok (fs, ls)
    ∧ mainline_moves knight_game !! 1 = Some Nc6
    ∧ fs !! 1 = Some f
    ∧ f !! "move_number" = Some (VInt 2)
    ∧ f !! "from_square" = Some (VInt 57).
Proof.
  destruct (extract_lengths knight_engine knight_game ltac:(discriminate))
    as (fs & ls & Hex & Hlen & _).
  destruct (lookup_lt_is_Some_2 fs 1) as [f Hf].
  { rewrite Hlen. simpl. lia. }
  exists fs, ls, f. split; [exact Hex|]. split; [reflexivity|].
  split; [exact Hf|].
  destruct (record_fields_before_move knight_engine knight_game 1 Nc6 fs ls f
              Hex eq_refl Hf) as (Hnum & Hfrom & _).
  split; [exact Hnum|exact Hfrom].
Defined.

Lemma piece_field_or_zero_witness :
  ∃ fs ls f,
    extract_features_from_game knight_game knight_engine = Ok (fs, ls)
    ∧ mainline_moves knight_game !! 1 = Some Nc6
    ∧ fs !! 1 = Some f
    ∧ base_board (replay knight_game 1) (from_square Nc6)
      = Some (mkPiece KNIGHT BLACK)
    ∧ f !! "piece" = Some (VInt 2).
Proof.
  destruct (extract_lengths knight_engine knight_game ltac:(discriminate))
    as (fs & ls & Hex & Hlen & _).
  destruct (lookup_lt_is_Some_2 fs 1) as [f Hf].
  { rewrite Hlen. simpl. lia. }
  assert (Hp : base_board (replay knight_game 1) (from_square Nc6)
               = Some (mkPiece KNIGHT BLACK)) by reflexivity.
  exists fs, ls, f. split; [exact Hex|]. split; [reflexivity|].
  split; [exact Hf|]. split; [exact Hp|].
  exact (proj1 (proj2 (piece_field_or_zero knight_engine knight_game 1 Nc6
                         fs ls f Hex eq_refl Hf) _ Hp)).
Defined.

(** ** Prefixes of a game *)

(** X9.  Extraction is causal: the records and labels of a game cut after
    some of its moves are the first records and labels of the whole game;
    later moves change nothing in earlier entries. *)
Theorem extract_prefix `{L : ChessLib} `{E : ScoreLib} (engine : Engine)
    (b : Board) (l1 l2 : list Move) (fs1 fs : list Feat)
    (ls1 ls : list string) :
  extract_features_from_game (@mkGame L b l1) engine = Ok (fs1, ls1) ->
  extract_features_from_game (@mkGame L b (l1 ++ l2)) engine = Ok (fs, ls) ->
  fs1 = take (length l1) fs ∧ ls1 = take (length l1) ls.
Proof.
  intros Hex1 Hex.
  destruct (extract_nonempty engine _ fs1 ls1 Hex1)
    as (st1 & Hrun1 & -> & -> & Hlen1 & Hlen1').
  destruct (extract_nonempty engine _ fs ls Hex)
    as (st & Hrun & -> & -> & _).
  simpl in Hrun1, Hrun, Hlen1, Hlen1'.
  destruct (run_moves_prefix engine (@mkGame L b (l1 ++ l2)) l1 l2 st1 st
              Hrun1 Hrun) as (fs' & ls' & Hfs & Hls).
  rewrite Hfs, Hls, <- Hlen1 at 1. rewrite <- Hlen1'.
  by rewrite !take_app_length.
Qed.

Lemma extract_prefix_witness :
  ∃ fs1 ls1 fs ls,
    extract_features_from_game (leaper_game [Nf3; Nc6]) knight_engine
    = Ok (fs1, ls1)
    ∧ extract_features_from_game (leaper_game ([Nf3; Nc6] ++ [Ng5]))
        knight_engine = Ok (fs, ls)
    ∧ fs1 = take 2 fs ∧ ls1 = take 2 ls.
Proof.
  destruct (extract_lengths knight_engine (leaper_game [Nf3; Nc6])
              ltac:(discriminate)) as (fs1 & ls1 & Hex1 & _).
  destruct (extract_lengths knight_engine (leaper_game ([Nf3; Nc6] ++ [Ng5]))
              ltac:(discriminate)) as (fs & ls & Hex & _).
  exists fs1, ls1, fs, ls. split; [exact Hex1|]. split; [exact Hex|].
  exact (extract_prefix knight_engine leaper_start [Nf3; Nc6] [Ng5]
           fs1 fs ls1 ls Hex1 Hex).
Defined.

(** ** An engine without scores *)

Section Silent.
Context `{L : ChessLib} `{E : ScoreLib}.
Variable engine : Engine.
Variable game : Game.
Hypothesis Hsilent : ∀ b, score (white (engine b 12)) 10000 = None.

Lemma silent_eval (n : nat) :
  n <= length (mainline_moves game) -> eval_at engine game n = 0%Z.
Proof.
  induction n as [|n IH]; intros Hn; [apply eval_at_0|].
  destruct (lookup_lt_is_Some_2 (mainline_moves game) n) as [move Hmove];
    [lia|].
  destruct (step_at engine game n move Hmove)
    as (st_n & st & feat & _ & _ & _ & _ & _ & _ & _ & _ & He).
  rewrite He. unfold eval_after. rewrite Hsilent. apply IH. lia.
Qed.

Lemma silent_labels (fs : list Feat) (ls : list string) :
  extract_features_from_game game engine = Ok (fs, ls) ->
  Forall (fun l => l = "good") ls.
Proof.
  intros Hex. apply Forall_lookup. intros n l Hl.
  destruct (extract_nonempty engine game fs ls Hex) as (_ & _ & _ & _ & _ & Hlen).
  assert (Hn : n < length (mainline_moves game)).
  { rewrite <- Hlen. eauto using lookup_lt_Some. }
  destruct (lookup_lt_is_Some_2 _ _ Hn) as [move Hmove].
  destruct (record_at engine game n move fs ls Hmove Hex)
    as (feat & _ & _ & _ & Hl').
  rewrite Hl in Hl'. injection Hl' as ->.
  by rewrite !silent_eval by lia.
Qed.
End Silent.

(** X10.  When the engine has no usable score for any position, every
    evaluation stays at the initial 0 and every move is labelled "good". *)
Theorem silent_engine_all_good `{L : ChessLib} `{E : ScoreLib}
    (engine : Engine) (game : Game) (fs : list Feat) (ls : list string) :
  (∀ b, score (white (engine b 12)) 10000 = None) ->
  extract_features_from_game game engine = Ok (fs, ls) ->
  (∀ n, n <= length (mainline_moves game) -> eval_at engine game n = 0%Z)
  ∧ Forall (fun l => l = "good") ls.
Proof.
  intros Hsilent Hex. split.
  - intros n. by apply silent_eval.
  - by eapply silent_labels.
Qed.

Lemma silent_engine_all_good_witness :
  (∀ b, score (white (scripted [] b 12)) 10000 = None)
  ∧ ∃ fs ls,
      extract_features_from_game knight_game (scripted []) = Ok (fs, ls)
      ∧ Forall (fun l => l = "good") ls.
Proof.
  assert (Hsilent : ∀ b, score (white (scripted [] b 12)) 10000 = None).
  { intros b. unfold scripted. simpl.
    destruct (plies b - 1), (to_move b); reflexivity. }
  split; [exact Hsilent|].
  destruct (extract_lengths (scripted []) knight_game ltac:(discriminate))
    as (fs & ls & Hex & _).
  exists fs, ls. split; [exact Hex|].
  exact (proj2 (silent_engine_all_good (scripted []) knight_game fs ls
                  Hsilent Hex)).
Defined.

(** ** Rows of the dataset *)

Lemma label_of_is_label (diff : Z) : is_label (label_of diff).
Proof.
  unfold is_label, label_of.
  destruct (diff <? 20)%Z; [by left|].
  destruct (diff >? 100)%Z; [by right; right|by right; left].
Qed.

Lemma add_rows_fold (items : list (Feat * string)) (rows : list Feat) :
  fold_left
    (fun all_rows '(feat, label) =>
       all_rows ++ [<["label" := VStr label]> feat])
    items rows
  = rows ++ map (fun '(feat, label) => <["label" := VStr label]> feat) items.
Proof.
  revert rows. induction items as [|[feat label] items IH]; intros rows;
    cbn [fold_left map]; [by rewrite app_nil_r|].
  by rewrite IH, <- app_assoc.
Qed.

Lemma add_rows_zip (feats : list Feat) (labels : list string) :
  add_rows [] feats labels
  = map (fun '(feat, label) => <["label" := VStr label]> feat)
      (zip feats labels).
Proof. unfold add_rows. by rewrite add_rows_fold. Qed.

Section Rows.
Context `{L : ChessLib} `{E : ScoreLib}.
Variable engine : Engine.

Lemma extract_labels (game : Game) (fs : list Feat) (ls : list string) :
  extract_features_from_game game engine = Ok (fs, ls) ->
  Forall is_label ls.
Proof.
  intros Hex. apply Forall_lookup. intros n l Hl.
  destruct (extract_nonempty engine game fs ls Hex) as (_ & _ & _ & _ & _ & Hlen).
  assert (Hn : n < length (mainline_moves game)).
  { rewrite <- Hlen. eauto using lookup_lt_Some. }
  destruct (lookup_lt_is_Some_2 _ _ Hn) as [move Hmove].
  destruct (record_at engine game n move fs ls Hmove Hex)
    as (feat & _ & _ & _ & Hl').
  rewrite Hl in Hl'. injection Hl' as ->. apply label_of_is_label.
Qed.

(** No record has a [label] field before the driver attaches one. *)
Lemma record_without_label (game : Game) (fs : list Feat) (ls : list string)
    (n : nat) (f : Feat) :
  extract_features_from_game game engine = Ok (fs, ls) ->
  fs !! n = Some f ->
  f !! "label" = None.
Proof.
  intros Hex Hf. apply not_elem_of_dom.
  destruct n as [|[|n]].
  - rewrite (first_record engine game fs ls Hex f Hf).
    by apply (bool_decide_unpack _).
  - destruct (lookup_lt_is_Some_2 fs 0) as [f0 Hf0].
    { apply lookup_lt_Some in Hf. lia. }
    destruct (second_record engine game fs ls Hex f0 f Hf0 Hf) as (-> & _).
    by apply (bool_decide_unpack _).
  - destruct (lookup_lt_is_Some_2 fs n) as [fa Hfa].
    { apply lookup_lt_Some in Hf. lia. }
    destruct (lookup_lt_is_Some_2 fs (S n)) as [fb Hfb].
    { apply lookup_lt_Some in Hf. lia. }
    destruct (later_record engine game fs ls Hex n fa fb f Hfa Hfb Hf)
      as (-> & _).
    by apply (bool_decide_unpack _).
Qed.

Lemma add_rows_length (game : Game) (fs : list Feat) (ls : list string) :
  extract_features_from_game game engine = Ok (fs, ls) ->
  length (add_rows [] fs ls) = length (mainline_moves game).
Proof.
  intros Hex.
  destruct (extract_nonempty engine game fs ls Hex)
    as (_ & _ & _ & _ & Hlf & Hll).
  rewrite add_rows_zip, length_map, length_zip_with. lia.
Qed.

(** X11.  The rows a game adds to the dataset are its records in order,
    each with the move's label attached under [label] and nothing else
    changed: there is one row per move, and removing the label from a row
    gives back the record. *)
Theorem rows_are_labelled_records (game : Game) (fs : list Feat)
    (ls : list string) :
  extract_features_from_game game engine = Ok (fs, ls) ->
  length (add_rows [] fs ls) = length (mainline_moves game)
  ∧ ∀ n f l, fs !! n = Some f -> ls !! n = Some l ->
      add_rows [] fs ls !! n = Some (<["label" := VStr l]> f)
      ∧ is_label l
      ∧ delete "label" (<["label" := VStr l]> f) = f
      ∧ ∀ key, key ≠ "label" -> <["label" := VStr l]> f !! key = f !! key.
Proof.
  intros Hex.
  destruct (extract_nonempty engine game fs ls Hex)
    as (_ & _ & _ & _ & Hlf & Hll).
  split; [by apply add_rows_length|]. rewrite add_rows_zip.
  intros n f l Hf Hl. split; [|split; [|split]].
  - rewrite list_lookup_fmap.
    rewrite (proj2 (lookup_zip_with_Some pair fs ls n (f, l))); [done|].
    by exists f, l.
  - pose proof (extract_labels game fs ls Hex) as Hlabels.
    by apply (proj1 (Forall_lookup _ _) Hlabels n l).
  - rewrite delete_insert_eq. apply delete_id.
    by apply (record_without_label game fs ls n f).
  - intros key Hkey. by rewrite lookup_insert_ne.
Qed.
End Rows.

Lemma rows_are_labelled_records_witness :
  ∃ fs ls,
    extract_features_from_game knight_game knight_engine = Ok (fs, ls)
    ∧ length (add_rows [] fs ls) = 5.
Proof.
  destruct (extract_lengths knight_engine knight_game ltac:(discriminate))
    as (fs & ls & Hex & _).
  exists fs, ls. split; [exact Hex|].
  exact (proj1 (rows_are_labelled_records knight_engine knight_game fs ls Hex)).
Defined.

(** ** The driver, beyond one game *)

Section Archive.
Context `{L : ChessLib} `{E : ScoreLib}.
Variable engine : Engine.

Lemma dataset_rows_length (games : list Game) :
  Forall (fun game => mainline_moves game ≠ []) games ->
  length (dataset_rows engine games) = total_moves games.
Proof.
  induction games as [|game games IH]; intros Hmoves; [done|].
  apply Forall_cons in Hmoves as [Hgame Hmoves].
  destruct (extract_lengths engine game Hgame) as (fs & ls & Hex & _).
  cbn [dataset_rows total_moves sum_list_with]. rewrite Hex, length_app.
  rewrite (add_rows_length engine game fs ls Hex). by rewrite IH.
Qed.

Lemma dataset_rows_labelled (games : list Game) :
  Forall (fun game => mainline_moves game ≠ []) games ->
  Forall (fun row => ∃ l, row !! "label" = Some (VStr l) ∧ is_label l)
    (dataset_rows engine games).
Proof.
  induction games as [|game games IH]; intros Hmoves; [constructor|].
  apply Forall_cons in Hmoves as [Hgame Hmoves].
  destruct (extract_lengths engine game Hgame) as (fs & ls & Hex & _).
  cbn [dataset_rows]. rewrite Hex. apply Forall_app. split; [|by apply IH].
  rewrite add_rows_zip. apply Forall_fmap, Forall_forall.
  intros [f l] Hfl. simpl. exists l. split; [by rewrite lookup_insert_eq|].
  pose proof (extract_labels engine game fs ls Hex) as Hlabels.
  rewrite Forall_forall in Hlabels. apply Hlabels.
  apply elem_of_zip_r in Hfl. done.
Qed.

(** X12.  When each of the games read has at least one move, the driver's
    loop ends by itself (the 500 units of fuel are never used up): it has
    processed the first 500 games of a longer archive and all games of a
    shorter one, and the rows are those of the processed games, game after
    game in archive order. *)
Theorem build_dataset_first_500 (games : list Game) :
  Forall (fun game => mainline_moves game ≠ []) (take 500 games) ->
  build_dataset games engine
  = Some (Ok (Z.of_nat (length games `min` 500),
              dataset_rows engine (take 500 games)))
  ∧ (length games <= 500 ->
     build_dataset games engine
     = Some (Ok (Z.of_nat (length games), dataset_rows engine games)))
  ∧ (500 < length games ->
     build_dataset games engine
     = Some (Ok (500%Z, dataset_rows engine (take 500 games)))).
Proof.
  intros Hmoves.
  pose proof (build_dataset_with_moves engine games Hmoves) as Hrun.
  split; [exact Hrun|]. split; intros Hlen; rewrite Hrun.
  - rewrite take_ge by lia. do 3 f_equal. lia.
  - do 3 f_equal. lia.
Qed.

(** X13.  Under the same condition the dataset has exactly one row per
    mainline move of the processed games, and every row carries a [label]
    that is one of "good", "inaccuracy" and "blunder". *)
Theorem dataset_one_row_per_move (games : list Game) (count : Z)
    (rows : list Feat) :
  Forall (fun game => mainline_moves game ≠ []) (take 500 games) ->
  build_dataset games engine = Some (Ok (count, rows)) ->
  length rows = total_moves (take 500 games)
  ∧ Forall (fun row => ∃ l, row !! "label" = Some (VStr l) ∧ is_label l) rows.
Proof.
  intros Hmoves Hrun.
  rewrite (build_dataset_with_moves engine games Hmoves) in Hrun.
  injection Hrun as <- <-.
  split; [by apply dataset_rows_length|by apply dataset_rows_labelled].
Qed.

(** X14.  A game without moves among the first 500 of the archive ends the
    run with the extraction's [IndexError], whatever games come before and
    after it: the rows collected so far are lost and no later game is
    read. *)
Theorem build_dataset_aborts (before after : list Game) (game : Game) :
  length before < 500 ->
  Forall (fun game => mainline_moves game ≠ []) before ->
  mainline_moves game = [] ->
  build_dataset (before ++ game :: after) engine = Some (Raise IndexError).
Proof.
  intros Hlen Hmoves Hnone. unfold build_dataset.
  apply read_games_no_moves; try done; lia.
Qed.
End Archive.

Lemma build_dataset_first_500_witness :
  Forall (fun game => mainline_moves game ≠ [])
    (take 500 [knight_game; king_first_game])
  ∧ build_dataset [knight_game; king_first_game] knight_engine
    = Some (Ok (2%Z, dataset_rows knight_engine [knight_game; king_first_game])).
Proof.
  assert (Hmoves : Forall (fun game => mainline_moves game ≠ [])
                     (take 500 [knight_game; king_first_game])).
  { repeat constructor; discriminate. }
  split; [exact Hmoves|].
  exact (proj1 (proj2 (build_dataset_first_500 knight_engine
                         [knight_game; king_first_game] Hmoves))
           ltac:(simpl; lia)).
Defined.

Lemma dataset_one_row_per_move_witness :
  Forall (fun game => mainline_moves game ≠ [])
    (take 500 [knight_game; king_first_game])
  ∧ build_dataset [knight_game; king_first_game] knight_engine
    = Some (Ok (2%Z, dataset_rows knight_engine [knight_game; king_first_game]))
  ∧ length (dataset_rows knight_engine [knight_game; king_first_game]) = 8.
Proof.
  assert (Hmoves : Forall (fun game => mainline_moves game ≠ [])
                     (take 500 [knight_game; king_first_game])).
  { repeat constructor; discriminate. }
  assert (Hrun : build_dataset [knight_game; king_first_game] knight_engine
                 = Some (Ok (2%Z, dataset_rows knight_engine
                                    [knight_game; king_first_game]))).
  { exact (build_dataset_with_moves knight_engine _ Hmoves). }
  split; [exact Hmoves|]. split; [exact Hrun|].
  exact (proj1 (dataset_one_row_per_move knight_engine _ _ _ Hmoves Hrun)).
Defined.

Lemma build_dataset_aborts_witness :
  length [knight_game] < 500
  ∧ Forall (fun game => mainline_moves game ≠ []) [knight_game]
  ∧ mainline_moves no_moves_game = []
  ∧ build_dataset ([knight_game] ++ no_moves_game :: [king_first_game])
      knight_engine
    = Some (Raise IndexError).
Proof.
  assert (Hlen : length [knight_game] < 500) by (simpl; lia).
  assert (Hmoves : Forall (fun game => mainline_moves game ≠ []) [knight_game]).
  { repeat constructor; discriminate. }
  split; [exact Hlen|]. split; [exact Hmoves|]. split; [reflexivity|].
  exact (build_dataset_aborts knight_engine [knight_game] [king_first_game]
           no_moves_game Hlen Hmoves eq_refl).
Defined.

(** ** Range of the developed-piece count *)

Lemma filter_length_mono {A : Type} (P Q : A -> bool) (l : list A) :
  (∀ x, P x = true -> Q x = true) ->
  length (List.filter P l) <= length (List.filter Q l).
Proof.
  intros HPQ. induction l as [|x l IH]; [done|].
  rewrite !filter_length_cons. pose proof (HPQ x) as Hx.
  destruct (P x), (Q x); lia.
Qed.

(** X15.  The developed-piece count is never negative and never exceeds
    the number of bishops and knights on the board, hence never 64. *)
Theorem developed_pieces_range (board : BaseBoard) :
  (0 <= developed_pieces board <= count_squares (minor_on board))%Z
  ∧ (count_squares (minor_on board) <= 64)%Z.
Proof.
  rewrite developed_pieces_count. unfold count_squares.
  pose proof (filter_length_mono (developed_on board) (minor_on board) SQUARES)
    as Hmono.
  pose proof (List.filter_length_le (minor_on board) SQUARES) as Hle.
  change (length SQUARES) with 64 in Hle.
  split; [|lia]. split; [lia|]. apply inj_le, Hmono.
  intros sq. unfold developed_on, minor_on.
  destruct (board sq) as [p|]; [|done]. by intros [? _]%andb_prop.
Qed.
